(** * pydantic/decorator.py: the [validate_arguments] call adapter

    A shallow embedding of [ValidatedFunction] ([__init__], [build_values],
    [execute], [__call__]) and the properties of the wrapper that follow
    from it. *)

From Stdlib Require Import List String Ascii ZArith Bool Arith Lia.
Import ListNotations.
Local Open Scope string_scope.
Local Open Scope list_scope.

Set Implicit Arguments.
Set Warnings "-register-all".

(** ** Python values *)

(** The values that flow through the wrapper. Dictionaries are keyed by
    strings, as keyword dictionaries are, and keep their insertion order. *)
Inductive value : Type :=
| VNone
| VInt (z : Z)
| VStr (s : string)
| VList (l : list value)
| VTuple (l : list value)
| VDict (items : list (string * value)).

(** Exceptions. [ValidationError] lists the offending locations. *)
Inductive error_kind : Type := MissingError | TypeErrorAt | ExtraError.

Inductive exn : Type :=
| DecoratorSetupError
| ValidationError (errors : list (string * error_kind))
| NotImplementedError
| KeyError (k : string)
| TypeError
| ValueError
| UserError (payload : value).

Inductive result : Type :=
| Return (v : value)
| Raise (e : exn).

(** ** Insertion-ordered dictionaries ([Dict[str, _]]) *)

Section Dict.
Variable V : Type.

Definition dict : Type := list (string * V).

Fixpoint dict_get (k : string) (d : dict) : option V :=
  match d with
  | [] => None
  | (k', v) :: d' => if String.eqb k k' then Some v else dict_get k d'
  end.

Definition dict_mem (k : string) (d : dict) : bool :=
  match dict_get k d with Some _ => true | None => false end.

(** [d[k] = v]: an existing key keeps its position, a new key goes last. *)
Fixpoint dict_set (k : string) (v : V) (d : dict) : dict :=
  match d with
  | [] => [(k, v)]
  | (k', v') :: d' =>
      if String.eqb k k' then (k', v) :: d' else (k', v') :: dict_set k v d'
  end.

(** [d.pop(k)]: [None] stands for the [KeyError]. *)
Fixpoint dict_pop (k : string) (d : dict) : option (V * dict) :=
  match d with
  | [] => None
  | (k', v') :: d' =>
      if String.eqb k k' then Some (v', d')
      else match dict_pop k d' with
           | Some (v, d'') => Some (v, (k', v') :: d'')
           | None => None
           end
  end.

(** [d.update(other)] for a mapping [other]. *)
Definition dict_update (d other : dict) : dict :=
  fold_left (fun acc kv => dict_set (fst kv) (snd kv) acc) other d.

Definition dict_keys (d : dict) : list string := map fst d.
End Dict.

Arguments dict_get {V} k d.
Arguments dict_mem {V} k d.
Arguments dict_set {V} k v d.
Arguments dict_pop {V} k d.
Arguments dict_update {V} d other.
Arguments dict_keys {V} d.

(** Sets of names ([set()] of [str]). *)
Definition set_mem (k : string) (s : list string) : bool :=
  existsb (String.eqb k) s.

Definition set_add (k : string) (s : list string) : list string :=
  if set_mem k s then s else s ++ [k].

(** [Dict[int, str]], written to at fresh indices only. *)
Fixpoint mapping_get (i : nat) (m : list (nat * string)) : option string :=
  match m with
  | [] => None
  | (j, n) :: m' => if Nat.eqb i j then Some n else mapping_get i m'
  end.

Fixpoint mapping_set (i : nat) (n : string) (m : list (nat * string))
  : list (nat * string) :=
  match m with
  | [] => [(i, n)]
  | (j, n') :: m' =>
      if Nat.eqb i j then (j, n) :: m' else (j, n') :: mapping_set i n m'
  end.

(** ** Signatures ([inspect.signature]) *)

Inductive Kind : Type :=
| POSITIONAL_ONLY
| POSITIONAL_OR_KEYWORD
| VAR_POSITIONAL
| KEYWORD_ONLY
| VAR_KEYWORD.

(** Type annotations: [Any], an annotation written by the user (opaque,
    known by its text), [Tuple[a, ...]] and [Dict[str, a]]. *)
Inductive annotation : Type :=
| Any
| Ann (text : string)
| TupleOf (a : annotation)
| DictStrOf (a : annotation).

(** [inspect.Parameter]; [None] in [default] and [p_annotation] is
    [Parameter.empty]. *)
Record Param : Type := mkParam {
  name : string;
  kind : Kind;
  default : option value;
  p_annotation : option annotation
}.

(** A callable: its name, its declared parameters and what calling it with
    positional arguments and keyword arguments does. *)
Record Callable : Type := mkCallable {
  __name__ : string;
  parameters : list Param;
  apply : list value -> dict value -> result
}.

(** ** The model type ([create_model]) *)

(** A field default: [...] (required) or a value. *)
Inductive default_value : Type :=
| Ellipsis
| Default (v : value).

Definition field_info : Type := (annotation * default_value)%type.

(** [pydantic.main.Extra]: what a model does with names that are not
    fields. *)
Inductive Extra : Type := allow | ignore | forbid.

Record Model : Type := mkModel {
  model_name : string;
  __config__ : Extra;
  __fields__ : dict field_info
}.

(** A validated instance: the effective value of every field, in field
    order ([__dict__]), and the names that were explicitly supplied
    ([__fields_set__]). *)
Record Instance : Type := mkInstance {
  __dict__ : dict value;
  __fields_set__ : list string
}.

(** [class DecoratorModelConfig(BaseConfig): extra = Extra.forbid] *)
Definition DecoratorModelConfig : Extra := forbid.

Definition ALT_VAR_ARGS : string := "var__args".
Definition ALT_VAR_KWARGS : string := "var__kwargs".

(** ** Effects: exceptions and a log of the observable steps *)

Inductive event : Type :=
| ModelBuilt (m : Model)
| Invoked (args : list value) (kwargs : dict value).

Definition M (A : Type) : Type := (list event * (exn + A))%type.

Definition ret {A} (a : A) : M A := ([], inr a).
Definition raise {A} (e : exn) : M A := ([], inl e).
Definition emit (ev : event) : M unit := ([ev], inr tt).

Definition bind {A B} (m : M A) (f : A -> M B) : M B :=
  match m with
  | (l, inl e) => (l, inl e)
  | (l, inr a) => let (l', r) := f a in (l ++ l', r)
  end.

Notation "x <- c1 ;; c2" := (bind c1 (fun x => c2))
  (at level 100, c1 at next level, right associativity).
Notation "c1 ;;; c2" := (bind c1 (fun _ => c2))
  (at level 100, right associativity).

Definition trace {A} (m : M A) : list event := fst m.
Definition outcome {A} (m : M A) : exn + A := snd m.

(** Calling a callable: the call is logged, its result or exception is
    what the caller sees. *)
Definition invoke (f : Callable) (args : list value) (kwargs : dict value)
  : M value :=
  emit (Invoked args kwargs) ;;;
  match apply f args kwargs with
  | Return v => ret v
  | Raise e => raise e
  end.

Definition is_invoked (ev : event) : bool :=
  match ev with Invoked _ _ => true | ModelBuilt _ => false end.

Definition never_invoked {A} (m : M A) : Prop :=
  existsb is_invoked (trace m) = false.

(** ** The schema validator *)

Section Wrapper.

(** [pydantic.utils.to_camel], which only labels the generated model. *)
Variable to_camel : string -> string.

(** The validator's type and coercion rules for one field: the validated
    value of a supplied value, or [None] when it is refused. *)
Variable validate_field : field_info -> value -> option value.

(** Modelled from the spec: [create_model] of pydantic/main.py. It accepts
    the ordered field declarations (name, type, default) and produces the
    model type; the configuration is the one the decorator passes. *)
Definition create_model (name : string) (config : Extra)
           (fields : dict field_info) : M Model :=
  let m := mkModel name config fields in
  emit (ModelBuilt m) ;;; ret m.

(** Modelled from the spec: the field pass of the model constructor of
    pydantic/main.py. Every declared field, in declaration order, takes
    its supplied value through [validate_field] and is then explicitly
    set, or takes its default; a required field that is not supplied and
    a refused value are errors. *)
Fixpoint validate_fields (fields : dict field_info) (input : dict value)
  : list (string * error_kind) * dict value * list string :=
  match fields with
  | [] => ([], [], [])
  | (n, info) :: rest =>
      let '(errors, values, fields_set) := validate_fields rest input in
      match dict_get n input with
      | None =>
          match snd info with
          | Ellipsis => ((n, MissingError) :: errors, values, fields_set)
          | Default v => (errors, (n, v) :: values, fields_set)
          end
      | Some v =>
          match validate_field info v with
          | Some v' => (errors, (n, v') :: values, n :: fields_set)
          | None => ((n, TypeErrorAt) :: errors, values, n :: fields_set)
          end
      end
  end.

(** Modelled from the spec: the model constructor of pydantic/main.py,
    called with the values map as its keywords. It gives a validated
    instance exposing the effective value of every field and the names
    explicitly supplied, or fails with a [ValidationError] that lists the
    offending names. Names outside the declared fields are treated as the
    configuration says; under [forbid] each one is an error. *)
Definition model_init (model : Model) (input : dict value) : M Instance :=
  let '(errors, values, fields_set) :=
    validate_fields (__fields__ model) input in
  let extra :=
    filter (fun kv => negb (dict_mem (fst kv) (__fields__ model))) input in
  let '(errors, values, fields_set) :=
    match __config__ model with
    | allow => (errors, values ++ extra, fields_set ++ dict_keys extra)
    | ignore => (errors, values, fields_set)
    | forbid =>
        (errors ++ map (fun kv => (fst kv, ExtraError)) extra,
         values, fields_set)
    end in
  match errors with
  | [] => ret (mkInstance values fields_set)
  | _ :: _ => raise (ValidationError errors)
  end.

(** Modelled from the spec: [BaseModel._iter] of pydantic/main.py, the
    effective value of every field of the instance, in field order. *)
Definition _iter (m : Instance) : dict value := __dict__ m.

(** ** [class ValidatedFunction] *)

Record ValidatedFunction : Type := mkValidatedFunction {
  raw_function : Callable;
  arg_mapping : list (nat * string);
  args_field_name : string;
  kwargs_field_name : string;
  positional_only_args : list string;
  _args_field_name : option string;
  _kwargs_field_name : option string;
  model : Model
}.

(** The attributes and locals that the loop of [__init__] updates. *)
Record init_state : Type := mkInit {
  i_arg_mapping : list (nat * string);
  i_positional_only_args : list string;
  i__args_field_name : option string;
  i__kwargs_field_name : option string;
  allows_var_args : bool;
  allows_var_kwargs : bool;
  fields : dict field_info
}.

Definition init_start : init_state :=
  mkInit [] [] None None false false [].

(** One iteration of [for i, (name, p) in enumerate(parameters.items())]. *)
Definition init_step (st : init_state) (i : nat) (p : Param) : init_state :=
  let annotation :=
    match p_annotation p with None => Any | Some a => a end in
  let default :=
    match default p with None => Ellipsis | Some v => Default v end in
  match kind p with
  | POSITIONAL_ONLY =>
      mkInit (mapping_set i (name p) (i_arg_mapping st))
             (set_add (name p) (i_positional_only_args st))
             (i__args_field_name st) (i__kwargs_field_name st)
             (allows_var_args st) (allows_var_kwargs st)
             (dict_set (name p) (annotation, default) (fields st))
  | POSITIONAL_OR_KEYWORD =>
      mkInit (mapping_set i (name p) (i_arg_mapping st))
             (i_positional_only_args st)
             (i__args_field_name st) (i__kwargs_field_name st)
             (allows_var_args st) (allows_var_kwargs st)
             (dict_set (name p) (annotation, default) (fields st))
  | KEYWORD_ONLY =>
      mkInit (i_arg_mapping st) (i_positional_only_args st)
             (i__args_field_name st) (i__kwargs_field_name st)
             (allows_var_args st) (allows_var_kwargs st)
             (dict_set (name p) (annotation, default) (fields st))
  | VAR_POSITIONAL =>
      mkInit (i_arg_mapping st) (i_positional_only_args st)
             (Some (name p)) (i__kwargs_field_name st)
             true (allows_var_kwargs st)
             (dict_set (name p) (TupleOf annotation, Default VNone)
                       (fields st))
  | VAR_KEYWORD =>
      mkInit (i_arg_mapping st) (i_positional_only_args st)
             (i__args_field_name st) (Some (name p))
             (allows_var_args st) true
             (dict_set (name p) (DictStrOf annotation, Default VNone)
                       (fields st))
  end.

Definition enumerate {A} (l : list A) : list (nat * A) :=
  combine (seq 0 (List.length l)) l.

Definition init_loop (parameters : list Param) : init_state :=
  fold_left (fun st ip => init_step st (fst ip) (snd ip))
            (enumerate parameters) init_start.

(** [parameters.keys() & {ALT_VAR_ARGS, ALT_VAR_KWARGS}] is not empty. *)
Definition reserved_name_declared (parameters : list Param) : bool :=
  existsb (fun p => String.eqb (name p) ALT_VAR_ARGS
                    || String.eqb (name p) ALT_VAR_KWARGS) parameters.

Definition __init__ (function : Callable) : M ValidatedFunction :=
  if reserved_name_declared (parameters function)
  then raise DecoratorSetupError
  else
    let st := init_loop (parameters function) in
    let args_field_name :=
      if negb (allows_var_args st) && dict_mem "args" (fields st)
      then ALT_VAR_ARGS else "args" in
    let kwargs_field_name :=
      if negb (allows_var_kwargs st) && dict_mem "kwargs" (fields st)
      then ALT_VAR_KWARGS else "kwargs" in
    model <- create_model (to_camel (__name__ function))
                          DecoratorModelConfig (fields st) ;;
    ret (mkValidatedFunction function (i_arg_mapping st)
           args_field_name kwargs_field_name
           (i_positional_only_args st)
           (i__args_field_name st) (i__kwargs_field_name st) model).

(** [validate_arguments]: the wrapper is the [ValidatedFunction]
    ([update_wrapper] only copies the name and the documentation). *)
Definition validate_arguments (function : Callable) : M ValidatedFunction :=
  __init__ function.

(** ** [build_values] *)

(** The positional walk: [enumerate(args)] from index [i] on. *)
Fixpoint bind_positional (self : ValidatedFunction) (i : nat)
         (args : list value) (values : dict value) : dict value * bool :=
  match args with
  | [] => (values, false)
  | a :: rest =>
      match mapping_get i (arg_mapping self) with
      | Some arg_name =>
          bind_positional self (S i) rest (dict_set arg_name a values)
      | None =>
          (dict_set (args_field_name self) (VList (a :: rest)) values, true)
      end
  end.

(** [for k, v in kwargs.items()]. *)
Fixpoint bind_keywords (self : ValidatedFunction) (kwargs : dict value)
         (values var_kwargs : dict value) : M (dict value * dict value) :=
  match kwargs with
  | [] => ret (values, var_kwargs)
  | (k, v) :: rest =>
      if dict_mem k (__fields__ (model self)) then
        if set_mem k (positional_only_args self)
        then raise NotImplementedError
        else bind_keywords self rest (dict_set k v values) var_kwargs
      else bind_keywords self rest values (dict_set k v var_kwargs)
  end.

Definition build_values (self : ValidatedFunction) (args : list value)
           (kwargs : dict value) : M (dict value * bool * bool) :=
  let '(values, has_var_args) :=
    match args with
    | [] => ([], false)
    | _ :: _ => bind_positional self 0 args []
    end in
  vk <- bind_keywords self kwargs values [] ;;
  let '(values, var_kwargs) := vk in
  match var_kwargs with
  | _ :: _ =>
      ret (dict_set (kwargs_field_name self) (VDict var_kwargs) values,
           has_var_args, true)
  | [] => ret (values, has_var_args, false)
  end.

(** ** [execute] *)

(** What [args_ += value] appends: the elements of a list or tuple, the
    keys of a dictionary, the characters of a string; [None] and integers
    are not iterable. *)
Fixpoint chars (s : string) : list value :=
  match s with
  | EmptyString => []
  | String c s' => VStr (String c EmptyString) :: chars s'
  end.

Definition iter_value (v : value) : option (list value) :=
  match v with
  | VList l | VTuple l => Some l
  | VDict items => Some (map (fun kv => VStr (fst kv)) items)
  | VStr s => Some (chars s)
  | VNone | VInt _ => None
  end.

(** *** Dictionaries keyed by any hashable value

    The dictionary [d] of [execute] starts with the field names as keys,
    but [d.update] can add keys of other types. *)

(** Values that can be keys: [None], integers, strings and tuples of
    hashable values; lists and dictionaries cannot be hashed. *)
Fixpoint hashable (v : value) : bool :=
  match v with
  | VNone | VInt _ | VStr _ => true
  | VTuple l => forallb hashable l
  | VList _ | VDict _ => false
  end.

(** Equality of keys. *)
Fixpoint key_eqb (a b : value) : bool :=
  match a, b with
  | VNone, VNone => true
  | VInt x, VInt y => Z.eqb x y
  | VStr s, VStr t => String.eqb s t
  | VTuple l, VTuple l' =>
      (fix all_eqb (l l' : list value) : bool :=
         match l, l' with
         | [], [] => true
         | x :: l, y :: l' => key_eqb x y && all_eqb l l'
         | _, _ => false
         end) l l'
  | _, _ => false
  end.

Definition items : Type := list (value * value).

(** [d[k] = v], as [dict_set] does it. *)
Fixpoint items_set (k v : value) (d : items) : items :=
  match d with
  | [] => [(k, v)]
  | (k', v') :: d' =>
      if key_eqb k k' then (k', v) :: d' else (k', v') :: items_set k v d'
  end.

(** A dictionary of field names, seen as a dictionary of any keys. *)
Definition as_items (d : dict value) : items :=
  map (fun kv => (VStr (fst kv), snd kv)) d.

(** The keyword dictionary of a call, when every key is a string. *)
Fixpoint string_keys (d : items) : option (dict value) :=
  match d with
  | [] => Some []
  | (VStr k, v) :: d' =>
      match string_keys d' with
      | Some r => Some ((k, v) :: r)
      | None => None
      end
  | _ :: _ => None
  end.

(** [name in self.positional_only_args], a set of strings. *)
Definition key_in (k : value) (s : list string) : bool :=
  match k with VStr n => set_mem n s | _ => false end.

(** One element of the iterable given to [d.update]: it is turned into a
    sequence, which must have length two, and its first element must be
    hashable to become a key. *)
Definition key_value_pair (e : value) : exn + (value * value) :=
  match iter_value e with
  | None => inl TypeError
  | Some [k; v] => if hashable k then inr (k, v) else inl TypeError
  | Some _ => inl ValueError
  end.

Fixpoint update_from_pairs (d : items) (l : list value) : exn + items :=
  match l with
  | [] => inr d
  | e :: l' =>
      match key_value_pair e with
      | inl ex => inl ex
      | inr (k, v) => update_from_pairs (items_set k v d) l'
      end
  end.

(** [d.update(other)]: a mapping is merged key by key; anything else is
    iterated as a sequence of key/value pairs. *)
Definition items_update (d : items) (other : value) : exn + items :=
  match other with
  | VDict o =>
      inr (fold_left (fun acc kv => items_set (VStr (fst kv)) (snd kv) acc)
                     o d)
  | _ =>
      match iter_value other with
      | None => inl TypeError
      | Some l => update_from_pairs d l
      end
  end.

(** The loop of the [has_var_args] branch. *)
Fixpoint split_var_args (self : ValidatedFunction) (its : items)
         (in_kwargs : bool) (args_ : list value) (kwargs : items)
  : M (list value * items) :=
  match its with
  | [] => ret (args_, kwargs)
  | (n, v) :: rest =>
      if in_kwargs
      then split_var_args self rest true args_ (items_set n v kwargs)
      else if key_eqb n (VStr (args_field_name self)) then
        match iter_value v with
        | Some l => split_var_args self rest true (args_ ++ l) kwargs
        | None => raise TypeError
        end
      else split_var_args self rest false (args_ ++ [v]) kwargs
  end.

(** The loop of the [positional_only_args] branch. *)
Fixpoint split_positional_only (self : ValidatedFunction)
         (its : items) (args_ : list value) (kwargs : items)
  : list value * items :=
  match its with
  | [] => (args_, kwargs)
  | (n, v) :: rest =>
      if key_in n (positional_only_args self)
      then split_positional_only self rest (args_ ++ [v]) kwargs
      else split_positional_only self rest args_ (items_set n v kwargs)
  end.

(** [{k: v for k, v in m._iter() if k in m.__fields_set__}] *)
Definition explicit_values (m : Instance) : dict value :=
  filter (fun kv => set_mem (fst kv) (__fields_set__ m)) (_iter m).

(** [d.update(d.pop(self.kwargs_field_name))]: the pop raises [KeyError]
    when the name is not a key of [d]; the update raises what
    [items_update] raises. *)
Definition merge_var_kwargs (self : ValidatedFunction) (d : dict value)
  : M items :=
  match dict_pop (kwargs_field_name self) d with
  | None => raise (KeyError (kwargs_field_name self))
  | Some (other, d') =>
      match items_update (as_items d') other with
      | inl e => raise e
      | inr merged => ret merged
      end
  end.

(** The call of [self.raw_function] with the unpacked [args_] and
    [kwargs]: keywords must be strings, or the call raises [TypeError]
    before the callable is entered. *)
Definition call_raw_function (self : ValidatedFunction)
           (args_ : list value) (kwargs : items) : M value :=
  match string_keys kwargs with
  | Some kw => invoke (raw_function self) args_ kw
  | None => raise TypeError
  end.

Definition execute (self : ValidatedFunction) (m : Instance)
           (has_var_args has_var_kwargs : bool) : M value :=
  let d := explicit_values m in
  d <- (if has_var_kwargs then merge_var_kwargs self d
        else ret (as_items d)) ;;
  if has_var_args then
    ak <- split_var_args self d false [] [] ;;
    call_raw_function self (fst ak) (snd ak)
  else
    match positional_only_args self with
    | _ :: _ =>
        let ak := split_positional_only self d [] [] in
        call_raw_function self (fst ak) (snd ak)
    | [] => call_raw_function self [] d
    end.

(** ** [__call__] *)

(** The body of [__call__] (lines 96 to 98), on the parameters as they are
    bound when the body runs: [args] and [kwargs] are what the signature of
    line 95 collected. Which calls reach the body is decided by
    [call_wrapper] below. *)
Definition __call__ (self : ValidatedFunction) (args : list value)
           (kwargs : dict value) : M value :=
  b <- build_values self args kwargs ;;
  let '(values, has_var_args, has_var_kwargs) := b in
  m <- model_init (model self) values ;;
  execute self m has_var_args has_var_kwargs.

(** Calling the wrapper with positional arguments [args] and keyword
    arguments [kwargs]. The arguments are first bound to the parameters of
    [__call__] (line 95), which are [self], the variadic positional [args]
    and the variadic keyword [kwargs]: the wrapper itself is [self], so a
    keyword named [self] gives that parameter a second value and the call
    raises [TypeError] before the body runs; every other keyword goes to
    [kwargs]. *)
Definition call_wrapper (self : ValidatedFunction) (args : list value)
           (kwargs : dict value) : M value :=
  if dict_mem "self" kwargs then raise TypeError
  else __call__ self args kwargs.

(** Wrapping [function] and calling the wrapper with [args] and [kwargs]. *)
Definition wrap_call (function : Callable) (args : list value)
           (kwargs : dict value) : M value :=
  vd <- validate_arguments function ;;
  call_wrapper vd args kwargs.

End Wrapper.

(** ** Calling a Python function directly *)

(** The binding of the arguments of a call to the parameters of a function
    definition, as the language does it: positional arguments fill the
    positional parameters in order and overflow into the [*] parameter,
    keyword arguments are matched by name and overflow into the [**]
    parameter, defaults fill what is left; every mismatch is a
    [TypeError]. *)
Definition positional_kind (k : Kind) : bool :=
  match k with
  | POSITIONAL_ONLY | POSITIONAL_OR_KEYWORD => true
  | _ => false
  end.

Definition keyword_kind (k : Kind) : bool :=
  match k with
  | POSITIONAL_OR_KEYWORD | KEYWORD_ONLY => true
  | _ => false
  end.

Definition is_var_positional (p : Param) : bool :=
  match kind p with VAR_POSITIONAL => true | _ => false end.

Definition is_var_keyword (p : Param) : bool :=
  match kind p with VAR_KEYWORD => true | _ => false end.

Definition keyword_names (sig : list Param) : list string :=
  map name (filter (fun p => keyword_kind (kind p)) sig).

Definition or_default (o : option value) (p : Param) : option value :=
  match o with Some v => Some v | None => default p end.

Fixpoint bind_params (all sig : list Param) (i : nat) (args : list value)
         (kwargs : dict value) : option (dict value) :=
  match sig with
  | [] => Some []
  | p :: rest =>
      let bound :=
        match kind p with
        | POSITIONAL_ONLY => or_default (nth_error args i) p
        | POSITIONAL_OR_KEYWORD =>
            match nth_error args i, dict_get (name p) kwargs with
            | Some _, Some _ => None
            | Some a, None => Some a
            | None, o => or_default o p
            end
        | VAR_POSITIONAL => Some (VTuple (skipn i args))
        | KEYWORD_ONLY => or_default (dict_get (name p) kwargs) p
        | VAR_KEYWORD =>
            Some (VDict (filter (fun kv =>
                                   negb (set_mem (fst kv) (keyword_names all)))
                                kwargs))
        end in
      let i' := if positional_kind (kind p) then S i else i in
      match bound, bind_params all rest i' args kwargs with
      | Some v, Some env => Some ((name p, v) :: env)
      | _, _ => None
      end
  end.

Definition py_bind (sig : list Param) (args : list value)
           (kwargs : dict value) : option (dict value) :=
  let n_pos := List.length (filter (fun p => positional_kind (kind p)) sig) in
  if Nat.ltb n_pos (List.length args) && negb (existsb is_var_positional sig)
  then None
  else if existsb (fun kv => negb (set_mem (fst kv) (keyword_names sig)))
                  kwargs
          && negb (existsb is_var_keyword sig)
  then None
  else bind_params sig sig 0 args kwargs.

(** [def name(sig): body], where [body] sees the bound parameters. *)
Definition def_function (fname : string) (sig : list Param)
           (body : dict value -> result) : Callable :=
  mkCallable fname sig
    (fun args kwargs =>
       match py_bind sig args kwargs with
       | Some env => body env
       | None => Raise TypeError
       end).

(** ** A validator to run examples with *)

Fixpoint all_some {A} (l : list (option A)) : option (list A) :=
  match l with
  | [] => Some []
  | None :: _ => None
  | Some a :: l' =>
      match all_some l' with Some r => Some (a :: r) | None => None end
  end.

(** [Any] accepts every value as it is, ["int"] and ["str"] accept integers
    and strings, [Tuple[a, ...]] turns a list or a tuple of accepted values
    into a tuple, [Dict[str, a]] accepts a dictionary of accepted values. *)
Fixpoint validate_annotation (a : annotation) (v : value) : option value :=
  match a with
  | Any => Some v
  | Ann t =>
      match v with
      | VInt _ => if String.eqb t "int" then Some v else None
      | VStr _ => if String.eqb t "str" then Some v else None
      | _ => None
      end
  | TupleOf a' =>
      match v with
      | VList l | VTuple l =>
          option_map VTuple (all_some (map (validate_annotation a') l))
      | _ => None
      end
  | DictStrOf a' =>
      match v with
      | VDict items =>
          option_map VDict
            (all_some (map (fun kv =>
                              option_map (pair (fst kv))
                                         (validate_annotation a' (snd kv)))
                           items))
      | _ => None
      end
  end.

(** A field whose default is [None] also accepts [None]. *)
Definition basic_validator (info : field_info) (v : value) : option value :=
  match v, snd info with
  | VNone, Default VNone => Some VNone
  | _, _ => validate_annotation (fst info) v
  end.

Definition wrap_basic : Callable -> list value -> dict value -> M value :=
  wrap_call (fun s => s) basic_validator.

(** A function body that reports the parameters it was called with. *)
Definition echo (env : dict value) : result := Return (VDict env).

Definition to_outcome (r : result) : exn + value :=
  match r with Return v => inr v | Raise e => inl e end.

(** ** The schema that [__init__] builds, in closed form *)

(** The field that the loop of [__init__] declares for a parameter. *)
Definition declared_field (p : Param) : string * field_info :=
  let a := match p_annotation p with None => Any | Some a => a end in
  let d := match default p with None => Ellipsis | Some v => Default v end in
  match kind p with
  | VAR_POSITIONAL => (name p, (TupleOf a, Default VNone))
  | VAR_KEYWORD => (name p, (DictStrOf a, Default VNone))
  | _ => (name p, (a, d))
  end.

Definition is_positional_only (p : Param) : bool :=
  match kind p with POSITIONAL_ONLY => true | _ => false end.

(** The loop of [__init__], started from any state and index. *)
Definition init_from (st : init_state) (i : nat) (l : list Param)
  : init_state :=
  fold_left (fun st ip => init_step st (fst ip) (snd ip))
            (combine (seq i (List.length l)) l) st.

Definition annotation_of (p : Param) : annotation :=
  match p_annotation p with None => Any | Some a => a end.

Definition all_positional_or_keyword (sig : list Param) : Prop :=
  Forall (fun p => kind p = POSITIONAL_OR_KEYWORD) sig.

(** ** Example signatures *)

(** [def f(a)] *)
Definition sig_a : list Param :=
  [mkParam "a" POSITIONAL_OR_KEYWORD None None].

(** [def f(a, b=2)] *)
Definition sig_a_b : list Param :=
  [mkParam "a" POSITIONAL_OR_KEYWORD None None;
   mkParam "b" POSITIONAL_OR_KEYWORD (Some (VInt 2)) None].

(** [def f(a, b=2, *rest, **kw)] *)
Definition sig_a_b_rest_kw : list Param :=
  [mkParam "a" POSITIONAL_OR_KEYWORD None None;
   mkParam "b" POSITIONAL_OR_KEYWORD (Some (VInt 2)) None;
   mkParam "rest" VAR_POSITIONAL None None;
   mkParam "kw" VAR_KEYWORD None None].

(** [def f(a, b=2, *args, **kwargs)] *)
Definition sig_a_b_args_kwargs : list Param :=
  [mkParam "a" POSITIONAL_OR_KEYWORD None None;
   mkParam "b" POSITIONAL_OR_KEYWORD (Some (VInt 2)) None;
   mkParam "args" VAR_POSITIONAL None None;
   mkParam "kwargs" VAR_KEYWORD None None].

(** [def f(args=1)] *)
Definition sig_args_default : list Param :=
  [mkParam "args" POSITIONAL_OR_KEYWORD (Some (VInt 1)) None].

(** [def f(var__args)] *)
Definition sig_reserved : list Param :=
  [mkParam "var__args" POSITIONAL_OR_KEYWORD None None].

(** [def f(a, /)] *)
Definition sig_a_posonly : list Param :=
  [mkParam "a" POSITIONAL_ONLY None None].

(** [def f(a, /, b)] *)
Definition sig_a_posonly_b : list Param :=
  [mkParam "a" POSITIONAL_ONLY None None;
   mkParam "b" POSITIONAL_OR_KEYWORD None None].

(** [def f(a, *rest, args=5)] *)
Definition sig_a_rest_kwonly_args : list Param :=
  [mkParam "a" POSITIONAL_OR_KEYWORD None None;
   mkParam "rest" VAR_POSITIONAL None None;
   mkParam "args" KEYWORD_ONLY (Some (VInt 5)) None].

(** [def f(kwargs, **kw)] *)
Definition sig_kwargs_kw : list Param :=
  [mkParam "kwargs" POSITIONAL_OR_KEYWORD None None;
   mkParam "kw" VAR_KEYWORD None None].

(** [def f(self, x)] *)
Definition sig_self_x : list Param :=
  [mkParam "self" POSITIONAL_OR_KEYWORD None None;
   mkParam "x" POSITIONAL_OR_KEYWORD None None].

(** * Properties *)

Ltac distinct_names :=
  repeat constructor; simpl; intuition discriminate.

Ltac nat_cases :=
  repeat match goal with
         | |- context [Nat.leb ?a ?b] => destruct (Nat.leb_spec a b)
         | |- context [Nat.ltb ?a ?b] => destruct (Nat.ltb_spec a b)
         end; simpl; try lia; auto.

(** ** Dictionaries *)

Section DictFacts.
Context {V : Type}.
Implicit Types (d : dict V) (k : string) (v : V).

Lemma dict_get_set_eq k v d : dict_get k (dict_set k v d) = Some v.
Proof.
  induction d as [|[k' v'] d IH]; simpl.
  - now rewrite String.eqb_refl.
  - destruct (String.eqb k k') eqn:E; simpl; rewrite E; auto.
Qed.

Lemma dict_get_set_neq k k' v d :
  k <> k' -> dict_get k (dict_set k' v d) = dict_get k d.
Proof.
  intros Hne. induction d as [|[k0 v0] d IH]; simpl.
  - destruct (String.eqb_spec k k'); congruence.
  - destruct (String.eqb_spec k' k0) as [->|Hk]; simpl.
    + destruct (String.eqb_spec k k0); congruence.
    + destruct (String.eqb_spec k k0); auto.
Qed.

Lemma dict_mem_set k k' v d :
  dict_mem k (dict_set k' v d) = String.eqb k k' || dict_mem k d.
Proof.
  unfold dict_mem. destruct (String.eqb_spec k k') as [->|Hne].
  - now rewrite dict_get_set_eq.
  - now rewrite dict_get_set_neq.
Qed.

Lemma dict_mem_In k d : dict_mem k d = true <-> In k (dict_keys d).
Proof.
  unfold dict_mem. induction d as [|[k' v'] d IH]; simpl.
  - split; [discriminate | tauto].
  - destruct (String.eqb_spec k k') as [->|Hne].
    + split; auto.
    + rewrite IH. split; [auto | intros [H|H]; congruence].
Qed.

Lemma dict_mem_false k d : dict_mem k d = false <-> ~ In k (dict_keys d).
Proof.
  rewrite <- dict_mem_In. destruct (dict_mem k d); split; congruence.
Qed.

Lemma dict_set_fresh k v d :
  dict_mem k d = false -> dict_set k v d = d ++ [(k, v)].
Proof.
  unfold dict_mem. induction d as [|[k' v'] d IH]; simpl; auto.
  destruct (String.eqb k k'); [discriminate|].
  intros H. now rewrite IH.
Qed.

Lemma dict_keys_set k v d :
  dict_keys (dict_set k v d) =
  if dict_mem k d then dict_keys d else dict_keys d ++ [k].
Proof.
  unfold dict_mem. induction d as [|[k' v'] d IH]; simpl; auto.
  destruct (String.eqb k k'); simpl; auto.
  rewrite IH. now destruct (dict_get k d).
Qed.

(** Filtering on the keys commutes with lookup. *)
Lemma dict_get_filter (keep : string -> bool) k d :
  dict_get k (filter (fun kv => keep (fst kv)) d) =
  if keep k then dict_get k d else None.
Proof.
  induction d as [|[k' v'] d IH]; simpl.
  - now destruct (keep k).
  - destruct (keep k') eqn:Hk'; simpl;
      destruct (String.eqb_spec k k') as [->|Hne];
      rewrite ?IH, ?Hk'; auto.
Qed.
End DictFacts.

Lemma set_mem_In k s : set_mem k s = true <-> In k s.
Proof.
  unfold set_mem. rewrite existsb_exists. split.
  - intros [x [Hin Heq]]. apply String.eqb_eq in Heq. now subst.
  - intros Hin. exists k. split; auto. apply String.eqb_refl.
Qed.

Lemma set_mem_add k k' s :
  set_mem k (set_add k' s) = String.eqb k k' || set_mem k s.
Proof.
  unfold set_add. destruct (set_mem k' s) eqn:E.
  - destruct (String.eqb_spec k k') as [->|]; simpl; auto.
  - unfold set_mem. rewrite existsb_app. simpl.
    rewrite orb_false_r. apply orb_comm.
Qed.

Lemma mapping_get_set i j n m :
  mapping_get j (mapping_set i n m) =
  if Nat.eqb j i then Some n else mapping_get j m.
Proof.
  induction m as [|[i' n'] m IH]; simpl.
  - reflexivity.
  - destruct (Nat.eqb_spec i i') as [->|Hne]; simpl.
    + destruct (Nat.eqb j i'); reflexivity.
    + rewrite IH. destruct (Nat.eqb_spec j i') as [->|]; auto.
      destruct (Nat.eqb_spec i' i); congruence.
Qed.

Lemma dict_get_In_NoDup {V} (d : dict V) k v :
  NoDup (dict_keys d) -> In (k, v) d -> dict_get k d = Some v.
Proof.
  induction d as [|[k' v'] d IH]; simpl; [tauto|].
  intros Hnd [Heq|Hin].
  - inversion Heq; subst. now rewrite String.eqb_refl.
  - inversion Hnd as [|? ? Hnotin Hnd']; subst.
    destruct (String.eqb_spec k k') as [->|]; auto.
    exfalso. apply Hnotin. change (In (fst (k', v)) (map fst d)).
    now apply in_map.
Qed.

Lemma existsb_false_iff {A} (f : A -> bool) l :
  existsb f l = false <-> forall x, In x l -> f x = false.
Proof.
  induction l as [|a l IH]; simpl.
  - split; [intros _ x [] | auto].
  - rewrite orb_false_iff, IH. split.
    + intros [Ha Hl] x [<-|Hx]; auto.
    + intros H. split; auto.
Qed.

(** ** The schema built by [__init__] *)

Lemma init_from_cons st i p l :
  init_from st i (p :: l) = init_from (init_step st i p) (S i) l.
Proof. reflexivity. Qed.

Lemma init_loop_from l : init_loop l = init_from init_start 0 l.
Proof. reflexivity. Qed.

Lemma fst_declared_field p : fst (declared_field p) = name p.
Proof. unfold declared_field. now destruct (kind p). Qed.

Lemma fields_step st i p :
  fields (init_step st i p) =
  dict_set (name p) (snd (declared_field p)) (fields st).
Proof. unfold init_step, declared_field. now destruct (kind p). Qed.

Lemma dict_mem_fields_from l : forall st i k,
  dict_mem k (fields (init_from st i l)) =
  dict_mem k (fields st) || set_mem k (map name l).
Proof.
  induction l as [|p l IH]; intros st i k.
  - simpl. now rewrite orb_false_r.
  - rewrite init_from_cons, IH, fields_step, dict_mem_set. simpl.
    destruct (String.eqb k (name p)), (dict_mem k (fields st)); reflexivity.
Qed.

Lemma fields_from_NoDup l : forall st i,
  NoDup (map name l) ->
  (forall p, In p l -> dict_mem (name p) (fields st) = false) ->
  fields (init_from st i l) = fields st ++ map declared_field l.
Proof.
  induction l as [|p l IH]; intros st i Hnd Hfresh.
  - simpl. now rewrite app_nil_r.
  - rewrite init_from_cons. inversion Hnd as [|? ? Hnotin Hnd']; subst.
    rewrite IH; auto.
    + rewrite fields_step, dict_set_fresh by (apply Hfresh; now left).
      rewrite <- app_assoc. simpl. f_equal. f_equal.
      destruct (declared_field p) eqn:E. simpl.
      f_equal. now rewrite <- (fst_declared_field p), E.
    + intros q Hq. rewrite fields_step, dict_mem_set.
      rewrite (Hfresh q) by now right. rewrite orb_false_r.
      apply String.eqb_neq. intros Heq. apply Hnotin. rewrite <- Heq.
      now apply in_map.
Qed.

Lemma allows_var_args_from l : forall st i,
  allows_var_args (init_from st i l) =
  allows_var_args st || existsb is_var_positional l.
Proof.
  induction l as [|p l IH]; intros st i.
  - simpl. now rewrite orb_false_r.
  - rewrite init_from_cons, IH. simpl. unfold init_step, is_var_positional.
    destruct (kind p); simpl; rewrite ?orb_true_r; auto.
Qed.

Lemma allows_var_kwargs_from l : forall st i,
  allows_var_kwargs (init_from st i l) =
  allows_var_kwargs st || existsb is_var_keyword l.
Proof.
  induction l as [|p l IH]; intros st i.
  - simpl. now rewrite orb_false_r.
  - rewrite init_from_cons, IH. simpl. unfold init_step, is_var_keyword.
    destruct (kind p); simpl; rewrite ?orb_true_r; auto.
Qed.

Lemma positional_only_from l : forall st i k,
  set_mem k (i_positional_only_args (init_from st i l)) =
  set_mem k (i_positional_only_args st)
  || existsb (fun p => is_positional_only p && String.eqb k (name p)) l.
Proof.
  induction l as [|p l IH]; intros st i k.
  - simpl. now rewrite orb_false_r.
  - rewrite init_from_cons, IH. simpl. unfold init_step, is_positional_only.
    destruct (kind p); simpl; auto.
    rewrite set_mem_add.
    destruct (String.eqb k (name p)),
             (set_mem k (i_positional_only_args st)); reflexivity.
Qed.

Lemma arg_mapping_from l : forall st i j,
  (forall j', i <= j' -> mapping_get j' (i_arg_mapping st) = None) ->
  mapping_get j (i_arg_mapping (init_from st i l)) =
  if Nat.ltb j i then mapping_get j (i_arg_mapping st)
  else match nth_error l (j - i) with
       | Some p => if positional_kind (kind p) then Some (name p) else None
       | None => None
       end.
Proof.
  induction l as [|p l IH]; intros st i j Hfree.
  - simpl. destruct (Nat.ltb_spec j i); auto.
    rewrite Hfree by lia. now destruct (j - i).
  - rewrite init_from_cons, IH.
    + assert (Hstep : forall j',
                 mapping_get j' (i_arg_mapping (init_step st i p)) =
                 if positional_kind (kind p) && Nat.eqb j' i
                 then Some (name p)
                 else mapping_get j' (i_arg_mapping st)).
      { intros j'. unfold init_step.
        destruct (kind p); simpl; auto; apply mapping_get_set. }
      rewrite Hstep.
      destruct (Nat.ltb_spec j (S i)), (Nat.ltb_spec j i); try lia.
      * destruct (Nat.eqb_spec j i); [lia|]. now rewrite andb_false_r.
      * assert (j = i) by lia. subst j. rewrite Nat.eqb_refl, Nat.sub_diag.
        simpl. rewrite andb_true_r.
        destruct (positional_kind (kind p)); auto.
      * replace (j - i) with (S (j - S i)) by lia. reflexivity.
    + intros j' Hj'. unfold init_step.
      destruct (kind p); simpl; rewrite ?mapping_get_set;
        try (destruct (Nat.eqb_spec j' i); [lia|]); apply Hfree; lia.
Qed.

Lemma reserved_name_declared_false l :
  reserved_name_declared l = false ->
  set_mem ALT_VAR_ARGS (map name l) = false
  /\ set_mem ALT_VAR_KWARGS (map name l) = false.
Proof.
  intros H.
  split; match goal with |- ?b = false => destruct b eqn:E end; auto;
    exfalso; apply set_mem_In in E; apply in_map_iff in E as [p [Hn Hin]];
    assert (Ht : reserved_name_declared l = true)
      by (apply existsb_exists; exists p; split; auto;
          rewrite Hn, String.eqb_refl; auto using orb_true_r);
    congruence.
Qed.

Section SchemaFacts.
Variable to_camel : string -> string.

(** What a successful [__init__] returns. *)
Lemma init_inv function vd :
  outcome (validate_arguments to_camel function) = inr vd ->
  let st := init_loop (parameters function) in
  reserved_name_declared (parameters function) = false
  /\ raw_function vd = function
  /\ arg_mapping vd = i_arg_mapping st
  /\ positional_only_args vd = i_positional_only_args st
  /\ __fields__ (model vd) = fields st
  /\ __config__ (model vd) = forbid
  /\ args_field_name vd =
     (if negb (allows_var_args st) && dict_mem "args" (fields st)
      then ALT_VAR_ARGS else "args")
  /\ kwargs_field_name vd =
     (if negb (allows_var_kwargs st) && dict_mem "kwargs" (fields st)
      then ALT_VAR_KWARGS else "kwargs").
Proof.
  unfold validate_arguments, __init__.
  destruct (reserved_name_declared (parameters function)); simpl.
  - discriminate.
  - intros H. inversion H; subst; simpl. repeat split; reflexivity.
Qed.

Lemma init_trace function vd :
  outcome (validate_arguments to_camel function) = inr vd ->
  validate_arguments to_camel function = ([ModelBuilt (model vd)], inr vd).
Proof.
  unfold validate_arguments, __init__.
  destruct (reserved_name_declared (parameters function)); simpl.
  - discriminate.
  - intros H. inversion H; subst; simpl. reflexivity.
Qed.

(** The overflow names are fields only if a variadic parameter was
    declared. *)
Lemma args_field_name_not_field function vd :
  outcome (validate_arguments to_camel function) = inr vd ->
  existsb is_var_positional (parameters function) = false ->
  dict_mem (args_field_name vd) (__fields__ (model vd)) = false.
Proof.
  intros H Hno. destruct (init_inv _ H) as (Hres & _ & _ & _ & Hf & _ & Ha & _).
  rewrite Ha, Hf, init_loop_from, allows_var_args_from, Hno. simpl.
  destruct (dict_mem "args" (fields (init_from init_start 0 (parameters function))))
    eqn:E; auto.
  rewrite dict_mem_fields_from. simpl.
  now destruct (reserved_name_declared_false _ Hres).
Qed.

Lemma kwargs_field_name_not_field function vd :
  outcome (validate_arguments to_camel function) = inr vd ->
  existsb is_var_keyword (parameters function) = false ->
  dict_mem (kwargs_field_name vd) (__fields__ (model vd)) = false.
Proof.
  intros H Hno. destruct (init_inv _ H) as (Hres & _ & _ & _ & Hf & _ & _ & Hk).
  rewrite Hk, Hf, init_loop_from, allows_var_kwargs_from, Hno. simpl.
  destruct (dict_mem "kwargs" (fields (init_from init_start 0 (parameters function))))
    eqn:E; auto.
  rewrite dict_mem_fields_from. simpl.
  now destruct (reserved_name_declared_false _ Hres).
Qed.

Lemma fields_of_init function vd :
  outcome (validate_arguments to_camel function) = inr vd ->
  NoDup (map name (parameters function)) ->
  __fields__ (model vd) = map declared_field (parameters function).
Proof.
  intros H Hnd. destruct (init_inv _ H) as (_ & _ & _ & _ & Hf & _).
  rewrite Hf, init_loop_from, fields_from_NoDup; auto.
Qed.

Lemma positional_only_is_field function vd k :
  outcome (validate_arguments to_camel function) = inr vd ->
  set_mem k (positional_only_args vd) = true ->
  dict_mem k (__fields__ (model vd)) = true.
Proof.
  intros H. destruct (init_inv _ H) as (_ & _ & _ & Hp & Hf & _).
  rewrite Hp, Hf, init_loop_from, positional_only_from, dict_mem_fields_from.
  simpl. intros Hex. apply existsb_exists in Hex as [p [Hin Hp']].
  apply andb_true_iff in Hp' as [_ Heq]. apply String.eqb_eq in Heq.
  apply set_mem_In. subst k. now apply in_map.
Qed.
End SchemaFacts.

(** ** Binding and validation *)

Section CallFacts.
Variable to_camel : string -> string.
Variable validate_field : field_info -> value -> option value.

Lemma bind_positional_has_var_args self : forall args i values values',
  bind_positional self i args values = (values', true) ->
  dict_mem (args_field_name self) values' = true.
Proof.
  induction args as [|a rest IH]; intros i values values'; simpl.
  - discriminate.
  - destruct (mapping_get i (arg_mapping self)).
    + apply IH.
    + intros H. inversion H; subst.
      now rewrite dict_mem_set, String.eqb_refl.
Qed.

(** The keyword pass logs nothing, raises nothing but
    [NotImplementedError] and never drops a name from the values. *)
Lemma bind_keywords_cases self : forall kwargs values var_kwargs,
  bind_keywords self kwargs values var_kwargs = ([], inl NotImplementedError)
  \/ exists values' var_kwargs',
      bind_keywords self kwargs values var_kwargs
      = ([], inr (values', var_kwargs'))
      /\ (forall k, dict_mem k values = true -> dict_mem k values' = true).
Proof.
  induction kwargs as [|[k v] rest IH]; intros values var_kwargs; simpl.
  - right. exists values, var_kwargs. auto.
  - destruct (dict_mem k (__fields__ (model self))).
    + destruct (set_mem k (positional_only_args self)); [now left|].
      destruct (IH (dict_set k v values) var_kwargs)
        as [H|(values' & vk' & H & Hkeep)]; [now left|right].
      exists values', vk'. split; auto.
      intros k0 Hk0. apply Hkeep. rewrite dict_mem_set, Hk0.
      apply orb_true_r.
    + apply IH.
Qed.

Lemma bind_keywords_positional_only self : forall kwargs values var_kwargs k,
  (forall k', set_mem k' (positional_only_args self) = true ->
              dict_mem k' (__fields__ (model self)) = true) ->
  In k (dict_keys kwargs) ->
  set_mem k (positional_only_args self) = true ->
  bind_keywords self kwargs values var_kwargs
  = ([], inl NotImplementedError).
Proof.
  intros kwargs values var_kwargs k Hsub.
  revert values var_kwargs.
  induction kwargs as [|[k0 v0] rest IH]; intros values var_kwargs Hin Hpo.
  - destruct Hin.
  - simpl in *.
    destruct (dict_mem k0 (__fields__ (model self))) eqn:Hf.
    + destruct (set_mem k0 (positional_only_args self)) eqn:Hp0; auto.
      apply IH; auto. destruct Hin as [->|]; [congruence | auto].
    + apply IH; auto. destruct Hin as [->|]; auto.
      rewrite Hsub in Hf by assumption. discriminate.
Qed.

(** The shape of [build_values]: it logs nothing; it raises only
    [NotImplementedError]; the flags tell which overflow names it wrote. *)
Lemma build_values_cases self args kwargs :
  build_values self args kwargs = ([], inl NotImplementedError)
  \/ exists values has_var_args has_var_kwargs,
      build_values self args kwargs
      = ([], inr (values, has_var_args, has_var_kwargs))
      /\ (has_var_args = true ->
          dict_mem (args_field_name self) values = true)
      /\ (has_var_kwargs = true ->
          dict_mem (kwargs_field_name self) values = true).
Proof.
  unfold build_values.
  set (pv := match args with
             | [] => ([], false)
             | _ :: _ => bind_positional self 0 args []
             end).
  assert (Hpv : snd pv = true ->
                dict_mem (args_field_name self) (fst pv) = true).
  { subst pv. destruct args as [|a rest]; [simpl; discriminate|].
    destruct (bind_positional self 0 (a :: rest) []) as [vs b] eqn:E.
    simpl. intros ->. eapply bind_positional_has_var_args; eauto. }
  destruct pv as [values has_var_args]. simpl in Hpv.
  destruct (bind_keywords_cases self kwargs values [])
    as [H|(values' & vk & H & Hkeep)]; rewrite H; simpl; [now left|right].
  destruct vk as [|kv vk]; simpl.
  - exists values', has_var_args, false. repeat split; auto. discriminate.
  - exists (dict_set (kwargs_field_name self) (VDict (kv :: vk)) values'),
           has_var_args, true.
    repeat split.
    + intros Ha. rewrite dict_mem_set, Hkeep by auto. apply orb_true_r.
    + intros _. now rewrite dict_mem_set, String.eqb_refl.
Qed.

(** Under [forbid], a name outside the fields fails the validation. *)
Lemma model_init_extra_forbidden (m : Model) values k :
  __config__ m = forbid ->
  dict_mem k values = true ->
  dict_mem k (__fields__ m) = false ->
  exists errors,
    model_init validate_field m values = ([], inl (ValidationError errors))
    /\ In (k, ExtraError) errors.
Proof.
  intros Hc Hk Hf. unfold model_init.
  destruct (validate_fields validate_field (__fields__ m) values)
    as [[errors vals] fs]. rewrite Hc.
  set (extra := filter _ values).
  assert (Hin : In (k, ExtraError)
                   (map (fun kv => (fst kv, ExtraError)) extra)).
  { apply dict_mem_In in Hk. apply in_map_iff in Hk as [[k' v] [Hk' Hin]].
    simpl in Hk'. subst k'. apply in_map_iff. exists (k, v). split; auto.
    apply filter_In. split; auto. simpl. now rewrite Hf. }
  destruct (errors ++ map (fun kv => (fst kv, ExtraError)) extra)
    as [|e es] eqn:E.
  - assert (Hin' : In (k, ExtraError)
                      (errors ++ map (fun kv => (fst kv, ExtraError)) extra))
      by (apply in_or_app; now right).
    rewrite E in Hin'. destruct Hin'.
  - exists (e :: es). split; auto. rewrite <- E. apply in_or_app. now right.
Qed.

Lemma model_init_trace (m : Model) values :
  trace (model_init validate_field m values) = [].
Proof.
  unfold model_init.
  destruct (validate_fields validate_field (__fields__ m) values)
    as [[errors vals] fs].
  destruct (__config__ m);
    match goal with |- context [match ?l with [] => _ | _ :: _ => _ end] =>
      destruct l end; reflexivity.
Qed.

(** A call that overflows into a name that is not a field is refused by
    the validation, and the wrapped callable is not reached. *)
Lemma overflow_without_field self args kwargs values hva hvk k :
  __config__ (model self) = forbid ->
  outcome (build_values self args kwargs) = inr (values, hva, hvk) ->
  dict_mem k values = true ->
  dict_mem k (__fields__ (model self)) = false ->
  exists errors,
    __call__ validate_field self args kwargs
    = ([], inl (ValidationError errors))
    /\ In (k, ExtraError) errors.
Proof.
  intros Hc Hb Hk Hf. unfold __call__.
  destruct (build_values_cases self args kwargs)
    as [H|(vs & a & b & H & _)]; rewrite H in Hb |- *; simpl in Hb.
  - discriminate.
  - inversion Hb; subst. simpl.
    destruct (model_init_extra_forbidden _ _ _ Hc Hk Hf) as (errs & Hm & Hin).
    rewrite Hm. simpl. eauto.
Qed.
End CallFacts.

(** ** The keyword pass *)

Section KeywordPass.
Variable self : ValidatedFunction.

Lemma bind_keywords_ok : forall kwargs values var_kwargs,
  (forall k, In k (dict_keys kwargs) ->
             set_mem k (positional_only_args self) = false) ->
  exists values' var_kwargs',
    bind_keywords self kwargs values var_kwargs
    = ([], inr (values', var_kwargs')).
Proof.
  induction kwargs as [|[k v] rest IH]; intros values var_kwargs Hpo; simpl.
  - exists values, var_kwargs. reflexivity.
  - assert (Hrest : forall k', In k' (dict_keys rest) ->
              set_mem k' (positional_only_args self) = false)
      by (intros k' Hk'; apply Hpo; now right).
    rewrite (Hpo k) by now left.
    destruct (dict_mem k (__fields__ (model self))); now apply IH.
Qed.

(** What the keyword pass leaves in the values: a keyword that names a
    field is stored under its name, everything else is as before. *)
Lemma bind_keywords_get : forall kwargs values var_kwargs values' var_kwargs',
  NoDup (dict_keys kwargs) ->
  bind_keywords self kwargs values var_kwargs
  = ([], inr (values', var_kwargs')) ->
  forall n,
    dict_get n values' =
    if dict_mem n (__fields__ (model self))
    then match dict_get n kwargs with
         | Some v => Some v
         | None => dict_get n values
         end
    else dict_get n values.
Proof.
  induction kwargs as [|[k v] rest IH];
    intros values var_kwargs values' var_kwargs' Hnd Hb n; simpl in *.
  - inversion Hb; subst. now destruct (dict_mem n _).
  - inversion Hnd as [|? ? Hnotin Hnd']; subst.
    destruct (dict_mem k (__fields__ (model self))) eqn:Hk.
    + destruct (set_mem k (positional_only_args self)); [discriminate|].
      rewrite (IH _ _ _ _ Hnd' Hb n).
      destruct (String.eqb_spec n k) as [->|Hne].
      * rewrite Hk, dict_get_set_eq.
        apply dict_mem_false in Hnotin. unfold dict_mem in Hnotin.
        now destruct (dict_get k rest).
      * now rewrite dict_get_set_neq.
    + rewrite (IH _ _ _ _ Hnd' Hb n).
      destruct (String.eqb_spec n k) as [->|Hne]; auto.
      now rewrite Hk.
Qed.

(** Keywords that name no field accumulate in the overflow map. *)
Lemma bind_keywords_overflow : forall kwargs values var_kwargs values' var_kwargs',
  bind_keywords self kwargs values var_kwargs
  = ([], inr (values', var_kwargs')) ->
  (forall k, dict_mem k var_kwargs = true -> dict_mem k var_kwargs' = true)
  /\ (forall k, In k (dict_keys kwargs) ->
                dict_mem k (__fields__ (model self)) = false ->
                dict_mem k var_kwargs' = true).
Proof.
  induction kwargs as [|[k v] rest IH];
    intros values var_kwargs values' var_kwargs' Hb; simpl in *.
  - inversion Hb; subst. split; [auto | intros k []].
  - destruct (dict_mem k (__fields__ (model self))) eqn:Hk.
    + destruct (set_mem k (positional_only_args self)); [discriminate|].
      destruct (IH _ _ _ _ Hb) as [Hkeep Hnew]. split; auto.
      intros k' [<-|Hin] Hf; [congruence | auto].
    + destruct (IH _ _ _ _ Hb) as [Hkeep Hnew]. split.
      * intros k' Hk'. apply Hkeep. rewrite dict_mem_set, Hk'.
        apply orb_true_r.
      * intros k' [<-|Hin] Hf; auto.
        apply Hkeep. now rewrite dict_mem_set, String.eqb_refl.
Qed.
End KeywordPass.

Lemma bind_positional_get self :
  (forall j1 j2 n, mapping_get j1 (arg_mapping self) = Some n ->
                   mapping_get j2 (arg_mapping self) = Some n -> j1 = j2) ->
  forall args i values values',
    bind_positional self i args values = (values', false) ->
    (forall j, i <= j < i + List.length args ->
               mapping_get j (arg_mapping self) <> None)
    /\ forall j n,
        mapping_get j (arg_mapping self) = Some n ->
        dict_get n values' =
        if Nat.leb i j && Nat.ltb j (i + List.length args)
        then nth_error args (j - i)
        else dict_get n values.
Proof.
  intros Hinj. induction args as [|a rest IH]; intros i values values' Hb;
    simpl in Hb.
  - inversion Hb; subst. split; [simpl; intros; lia|].
    intros j n _. simpl. nat_cases.
  - destruct (mapping_get i (arg_mapping self)) as [s|] eqn:Hi;
      [|discriminate].
    apply IH in Hb as [Hr Hg]. split.
    + intros j Hj. simpl in Hj.
      destruct (Nat.eq_dec j i) as [->|]; [congruence | apply Hr; lia].
    + intros j n Hj. rewrite (Hg j n Hj). simpl List.length.
      destruct (Nat.eq_dec j i) as [->|Hne].
      * assert (s = n) by congruence. subst s.
        rewrite dict_get_set_eq, Nat.sub_diag. nat_cases.
      * assert (n <> s)
          by (intros ->; apply Hne; eapply Hinj; eauto).
        rewrite dict_get_set_neq by assumption.
        nat_cases. replace (j - i) with (S (j - S i)) by lia. reflexivity.
Qed.

Lemma build_values_no_keywords self args :
  build_values self args []
  = ([], inr (fst (bind_positional self 0 args []),
              snd (bind_positional self 0 args []), false)).
Proof.
  unfold build_values. destruct args as [|a rest]; [reflexivity|].
  now destruct (bind_positional self 0 (a :: rest) []).
Qed.

Lemma build_values_no_positional self kwargs :
  build_values self [] kwargs
  = (vk <- bind_keywords self kwargs [] [] ;;
     match snd vk with
     | _ :: _ =>
         ret (dict_set (kwargs_field_name self) (VDict (snd vk)) (fst vk),
              false, true)
     | [] => ret (fst vk, false, false)
     end).
Proof.
  unfold build_values, bind.
  destruct (bind_keywords self kwargs [] []) as [l [e|[vs vk]]]; reflexivity.
Qed.

(** ** The validated instance *)

Section InstanceFacts.
Variable validate_field : field_info -> value -> option value.

Lemma validate_fields_facts input : forall flds errors values fields_set,
  validate_fields validate_field flds input
  = (errors, values, fields_set) ->
  (forall n, set_mem n fields_set = true -> dict_mem n input = true)
  /\ (forall n, dict_mem n flds = true -> dict_mem n input = true ->
                set_mem n fields_set = true)
  /\ (forall n, In n (dict_keys values) -> In n (dict_keys flds))
  /\ (errors = [] ->
      forall n info, In (n, info) flds -> dict_get n input = None ->
                     exists v, snd info = Default v).
Proof.
  induction flds as [|[n0 info0] rest IH];
    intros errors values fields_set Hv; simpl in Hv.
  - inversion Hv; subst.
    repeat split; intros; simpl in *; try discriminate; contradiction.
  - destruct (validate_fields validate_field rest input)
      as [[errs vals] fs] eqn:E.
    destruct (IH _ _ _ eq_refl) as (H1 & H2 & H3 & H4).
    assert (Hmem : forall n, dict_mem n ((n0, info0) :: rest)
                             = String.eqb n n0 || dict_mem n rest).
    { intros n. unfold dict_mem. simpl. now destruct (String.eqb n n0). }
    destruct (dict_get n0 input) as [v|] eqn:Hin.
    + assert (Hn0 : dict_mem n0 input = true)
        by (unfold dict_mem; now rewrite Hin).
      assert (Hfs : forall n, set_mem n (n0 :: fs) = true ->
                              dict_mem n input = true).
      { intros n. simpl. destruct (String.eqb_spec n n0) as [->|]; auto. }
      assert (Hfs' : forall n, dict_mem n ((n0, info0) :: rest) = true ->
                               dict_mem n input = true ->
                               set_mem n (n0 :: fs) = true).
      { intros n. rewrite Hmem. simpl.
        destruct (String.eqb n n0); simpl; auto. }
      destruct (validate_field info0 v); inversion Hv; subst;
        (split; [exact Hfs|]; split; [exact Hfs'|]; split).
      * simpl. intros n [<-|Hn]; auto.
      * intros Hnil n info [Heq|Hi] Hnone; [|eapply H4; eauto].
        inversion Heq; subst. congruence.
      * simpl. intros n Hn. auto.
      * discriminate.
    + assert (Hfs' : forall n, dict_mem n ((n0, info0) :: rest) = true ->
                               dict_mem n input = true ->
                               set_mem n fs = true).
      { intros n. rewrite Hmem.
        destruct (String.eqb_spec n n0) as [->|]; simpl; auto.
        unfold dict_mem. rewrite Hin. discriminate. }
      destruct (snd info0) eqn:Hd; inversion Hv; subst;
        (split; [exact H1|]; split; [exact Hfs'|]; split).
      * simpl. auto.
      * discriminate.
      * simpl. intros n [<-|Hn]; auto.
      * intros Hnil n info [Heq|Hi] Hnone; [|eapply H4; eauto].
        inversion Heq; subst. eauto.
Qed.

(** A successful validation under [forbid]. *)
Lemma model_init_forbid_inv (m : Model) values inst :
  __config__ m = forbid ->
  outcome (model_init validate_field m values) = inr inst ->
  validate_fields validate_field (__fields__ m) values
  = ([], __dict__ inst, __fields_set__ inst)
  /\ model_init validate_field m values = ([], inr inst)
  /\ (forall k, dict_mem k values = true ->
                dict_mem k (__fields__ m) = true).
Proof.
  intros Hc. unfold model_init.
  destruct (validate_fields validate_field (__fields__ m) values)
    as [[errors vals] fs]. rewrite Hc.
  destruct errors as [|e es]; simpl; [|discriminate].
  set (extra := filter _ values).
  destruct (map (fun kv => (fst kv, ExtraError)) extra) as [|e es] eqn:E;
    simpl; [|discriminate].
  intros H. inversion H; subst; simpl. repeat split.
  intros k Hk. destruct (dict_mem k (__fields__ m)) eqn:Hf; auto.
  apply dict_mem_In in Hk. apply in_map_iff in Hk as [[k' v] [Hk' Hin]].
  simpl in Hk'. subst k'.
  assert (Hex : In (k, v) extra)
    by (apply filter_In; split; auto; simpl; now rewrite Hf).
  apply (in_map (fun kv => (fst kv, ExtraError))) in Hex.
  rewrite E in Hex. destruct Hex.
Qed.

(** When the supplied values come through the validation unchanged, the
    explicitly set values are the supplied values. *)
Lemma explicit_values_get (m : Model) values inst :
  __config__ m = forbid ->
  outcome (model_init validate_field m values) = inr inst ->
  (forall k v, dict_get k values = Some v ->
               dict_get k (__dict__ inst) = Some v) ->
  (forall n, dict_get n (explicit_values inst) = dict_get n values)
  /\ (forall n, In n (dict_keys (explicit_values inst)) ->
                In n (dict_keys (__fields__ m)))
  /\ (forall n info, In (n, info) (__fields__ m) ->
                     dict_get n values = None ->
                     exists v, snd info = Default v).
Proof.
  intros Hc Hm Hsame.
  destruct (model_init_forbid_inv _ _ Hc Hm) as (Hv & _ & Hsub).
  destruct (validate_fields_facts _ _ Hv) as (H1 & H2 & H3 & H4).
  split; [|split].
  - intros n. unfold explicit_values, _iter.
    rewrite (dict_get_filter (fun k => set_mem k (__fields_set__ inst))).
    destruct (dict_get n values) as [v|] eqn:Hn.
    + rewrite (Hsame _ _ Hn).
      assert (Hmem : dict_mem n values = true)
        by (unfold dict_mem; now rewrite Hn).
      now rewrite (H2 n (Hsub n Hmem) Hmem).
    + destruct (set_mem n (__fields_set__ inst)) eqn:Hs; auto.
      apply H1 in Hs. unfold dict_mem in Hs. now rewrite Hn in Hs.
  - intros n Hn. apply H3. unfold explicit_values, _iter, dict_keys in Hn.
    apply in_map_iff in Hn as [kv [Hk Hin]]. apply filter_In in Hin.
    apply in_map_iff. exists kv. tauto.
  - intros n info Hin Hnone. eapply H4; eauto.
Qed.
End InstanceFacts.

(** ** Reconstruction *)

Lemma bind_ret_l {A B} (a : A) (f : A -> M B) : bind (ret a) f = f a.
Proof. unfold bind, ret. now destruct (f a). Qed.

Lemma bind_pure_l {A B} (a : A) (f : A -> M B) : bind ([], inr a) f = f a.
Proof. exact (bind_ret_l a f). Qed.

Lemma invoke_eq f args kwargs :
  invoke f args kwargs
  = ([Invoked args kwargs], to_outcome (apply f args kwargs)).
Proof. unfold invoke. simpl. now destruct (apply f args kwargs). Qed.

(** Dictionaries of field names among dictionaries of any keys. *)
Lemma items_set_as_items k v d :
  items_set (VStr k) v (as_items d) = as_items (dict_set k v d).
Proof.
  induction d as [|[k' v'] d IH]; simpl; auto.
  destruct (String.eqb k k'); simpl; auto. now rewrite IH.
Qed.

Lemma as_items_update o : forall d,
  fold_left (fun acc kv => items_set (VStr (fst kv)) (snd kv) acc)
            o (as_items d)
  = as_items (dict_update d o).
Proof.
  induction o as [|[k v] o IH]; intros d; simpl; auto.
  rewrite items_set_as_items. apply IH.
Qed.

Lemma items_update_mapping d o :
  items_update (as_items d) (VDict o) = inr (as_items (dict_update d o)).
Proof. simpl. now rewrite as_items_update. Qed.

Lemma string_keys_as_items d : string_keys (as_items d) = Some d.
Proof.
  induction d as [|[k v] d IH]; simpl; auto. now rewrite IH.
Qed.

Lemma map_snd_as_items d : map snd (as_items d) = map snd d.
Proof. unfold as_items. rewrite map_map. reflexivity. Qed.

Lemma call_raw_function_eq self args_ kwargs :
  call_raw_function self args_ (as_items kwargs)
  = invoke (raw_function self) args_ kwargs.
Proof. unfold call_raw_function. now rewrite string_keys_as_items. Qed.

Lemma call_raw_function_cases self args_ kwargs :
  call_raw_function self args_ kwargs = ([], inl TypeError)
  \/ exists kw,
      call_raw_function self args_ kwargs
      = ([Invoked args_ kw],
         to_outcome (apply (raw_function self) args_ kw)).
Proof.
  unfold call_raw_function. destruct (string_keys kwargs) as [kw|].
  - right. exists kw. apply invoke_eq.
  - now left.
Qed.

Lemma split_positional_only_spec self : forall its args_ kwargs,
  split_positional_only self (as_items its) args_ (as_items kwargs)
  = (args_ ++ map snd (filter (fun kv =>
                                 set_mem (fst kv) (positional_only_args self))
                              its),
     as_items
       (dict_update kwargs
          (filter (fun kv =>
                     negb (set_mem (fst kv) (positional_only_args self)))
                  its))).
Proof.
  induction its as [|[n v] rest IH]; intros args_ kwargs; simpl.
  - now rewrite app_nil_r.
  - destruct (set_mem n (positional_only_args self)); simpl.
    + rewrite IH. now rewrite <- app_assoc.
    + rewrite items_set_as_items, IH. reflexivity.
Qed.

Lemma split_var_args_cases self : forall its in_kwargs args_ kwargs,
  split_var_args self its in_kwargs args_ kwargs = ([], inl TypeError)
  \/ exists ak,
      split_var_args self its in_kwargs args_ kwargs = ([], inr ak).
Proof.
  induction its as [|[n v] rest IH]; intros in_kwargs args_ kwargs; simpl.
  - right. eexists. reflexivity.
  - destruct in_kwargs; [apply IH|].
    destruct (key_eqb n (VStr (args_field_name self))); [|apply IH].
    destruct (iter_value v); [apply IH | now left].
Qed.

Lemma merge_var_kwargs_cases self d :
  (exists e, merge_var_kwargs self d = ([], inl e))
  \/ exists d', merge_var_kwargs self d = ([], inr d').
Proof.
  unfold merge_var_kwargs.
  destruct (dict_pop (kwargs_field_name self) d) as [[v d']|].
  - destruct (items_update (as_items d') v) as [e|merged].
    + left. exists e. reflexivity.
    + right. exists merged. reflexivity.
  - left. eexists. reflexivity.
Qed.

(** [execute] either raises before the call, or calls the wrapped callable
    once and hands its result or its exception on. *)
Lemma execute_cases self m has_var_args has_var_kwargs :
  (exists e, execute self m has_var_args has_var_kwargs = ([], inl e))
  \/ exists args_ kwargs,
      execute self m has_var_args has_var_kwargs
      = ([Invoked args_ kwargs],
         to_outcome (apply (raw_function self) args_ kwargs)).
Proof.
  assert (Hcall : forall a k,
             (exists e, call_raw_function self a k = ([], inl e))
             \/ exists args_ kwargs,
                 call_raw_function self a k
                 = ([Invoked args_ kwargs],
                    to_outcome (apply (raw_function self) args_ kwargs))).
  { intros a k. destruct (call_raw_function_cases self a k) as [H|[kw H]].
    - left. eexists. exact H.
    - right. exists a, kw. exact H. }
  unfold execute.
  assert (Hd : (exists e,
                   (if has_var_kwargs
                    then merge_var_kwargs self (explicit_values m)
                    else ret (as_items (explicit_values m))) = ([], inl e))
               \/ exists d,
                   (if has_var_kwargs
                    then merge_var_kwargs self (explicit_values m)
                    else ret (as_items (explicit_values m))) = ([], inr d)).
  { destruct has_var_kwargs; [apply merge_var_kwargs_cases|].
    right. eexists. reflexivity. }
  destruct Hd as [[e He]|[d Hd]].
  - rewrite He. left. exists e. reflexivity.
  - rewrite Hd, bind_pure_l.
    destruct has_var_args.
    + destruct (split_var_args_cases self d false [] []) as [H|[ak H]];
        rewrite H.
      * left. eexists. reflexivity.
      * rewrite bind_pure_l. apply Hcall.
    + destruct (positional_only_args self); apply Hcall.
Qed.

(** Without overflow, a callable with no positional-only parameter gets
    every explicitly set field by keyword. *)
Lemma execute_by_keyword self m :
  positional_only_args self = [] ->
  execute self m false false
  = invoke (raw_function self) [] (explicit_values m).
Proof.
  intros Hpo. unfold execute. rewrite bind_ret_l, Hpo.
  apply call_raw_function_eq.
Qed.

(** ** Omitted parameters *)

Lemma bind_positional_mem self : forall args i values values' b n,
  bind_positional self i args values = (values', b) ->
  dict_mem n values' = true ->
  dict_mem n values = true
  \/ (exists j, j < List.length args
                /\ mapping_get (i + j) (arg_mapping self) = Some n)
  \/ n = args_field_name self.
Proof.
  induction args as [|a rest IH]; intros i values values' b n Hb Hn;
    simpl in Hb.
  - inversion Hb; subst. now left.
  - destruct (mapping_get i (arg_mapping self)) as [s|] eqn:Hi.
    + destruct (IH _ _ _ _ _ Hb Hn) as [Hm|[(j & Hj & Hm)|Hm]].
      * rewrite dict_mem_set in Hm. apply orb_true_iff in Hm as [Hm|Hm].
        -- apply String.eqb_eq in Hm. subst s. right. left. exists 0.
           rewrite Nat.add_0_r. simpl. split; [lia | assumption].
        -- now left.
      * right. left. exists (S j). simpl. split; [lia|].
        now rewrite Nat.add_succ_r.
      * now right; right.
    + inversion Hb; subst. rewrite dict_mem_set in Hn.
      apply orb_true_iff in Hn as [Hn|Hn].
      * apply String.eqb_eq in Hn. now right; right.
      * now left.
Qed.

Lemma bind_keywords_mem self : forall kwargs values var_kwargs values' var_kwargs' n,
  bind_keywords self kwargs values var_kwargs
  = ([], inr (values', var_kwargs')) ->
  dict_mem n values' = true ->
  dict_mem n values = true \/ In n (dict_keys kwargs).
Proof.
  induction kwargs as [|[k v] rest IH];
    intros values var_kwargs values' var_kwargs' n Hb Hn; simpl in Hb.
  - inversion Hb; subst. now left.
  - destruct (dict_mem k (__fields__ (model self))).
    + destruct (set_mem k (positional_only_args self)); [discriminate|].
      destruct (IH _ _ _ _ _ Hb Hn) as [Hm|Hm].
      * rewrite dict_mem_set in Hm. apply orb_true_iff in Hm as [Hm|Hm].
        -- apply String.eqb_eq in Hm. right. simpl. now left.
        -- now left.
      * right. simpl. now right.
    + destruct (IH _ _ _ _ _ Hb Hn) as [Hm|Hm]; [now left|].
      right. simpl. now right.
Qed.

(** The names in the values map: those bound by position, those bound by
    keyword, and the two overflow names. *)
Lemma build_values_mem self args kwargs values hva hvk n :
  outcome (build_values self args kwargs) = inr (values, hva, hvk) ->
  dict_mem n values = true ->
  (exists j, j < List.length args
             /\ mapping_get j (arg_mapping self) = Some n)
  \/ In n (dict_keys kwargs)
  \/ n = args_field_name self
  \/ n = kwargs_field_name self.
Proof.
  unfold build_values.
  destruct (match args with
            | [] => ([], false)
            | _ :: _ => bind_positional self 0 args []
            end) as [values0 hva0] eqn:Hp.
  assert (Hp' : bind_positional self 0 args [] = (values0, hva0))
    by (destruct args; exact Hp).
  destruct (bind_keywords_cases self kwargs values0 [])
    as [H|(vs & vk & H & _)]; rewrite H; [discriminate|].
  rewrite bind_pure_l.
  assert (Hvs : dict_mem n vs = true ->
                (exists j, j < List.length args
                           /\ mapping_get j (arg_mapping self) = Some n)
                \/ In n (dict_keys kwargs)
                \/ n = args_field_name self
                \/ n = kwargs_field_name self).
  { intros Hn. destruct (bind_keywords_mem _ _ _ _ _ H Hn) as [Hm|Hm]; auto.
    destruct (bind_positional_mem _ _ _ _ _ Hp' Hm) as [Hm'|[Hm'|Hm']]; auto.
    discriminate. }
  destruct vk as [|kv vk]; simpl; intros Hb Hn;
    inversion Hb; subst; auto.
  rewrite dict_mem_set in Hn. apply orb_true_iff in Hn as [Hn|Hn]; auto.
  apply String.eqb_eq in Hn. auto.
Qed.

(** A parameter that the caller omits, and that is not named like one of
    the two overflow names, is not among the explicitly set values. *)
Lemma omitted_parameter_not_explicit
      (validate_field : field_info -> value -> option value)
      self args kwargs values hva hvk m n :
  __config__ (model self) = forbid ->
  outcome (build_values self args kwargs) = inr (values, hva, hvk) ->
  outcome (model_init validate_field (model self) values) = inr m ->
  (forall j, j < List.length args ->
             mapping_get j (arg_mapping self) <> Some n) ->
  ~ In n (dict_keys kwargs) ->
  n <> args_field_name self ->
  n <> kwargs_field_name self ->
  dict_mem n (explicit_values m) = false.
Proof.
  intros Hc Hb Hm Hpos Hkw Ha Hk.
  destruct (model_init_forbid_inv _ _ _ Hc Hm) as (Hv & _ & _).
  destruct (validate_fields_facts _ _ _ Hv) as (H1 & _).
  unfold dict_mem, explicit_values, _iter.
  rewrite (dict_get_filter (fun k => set_mem k (__fields_set__ m))).
  destruct (set_mem n (__fields_set__ m)) eqn:Hs; auto.
  apply H1 in Hs.
  destruct (build_values_mem _ _ _ _ Hb Hs) as [(j & Hj & Hm')|[H|[H|H]]];
    try contradiction.
  exfalso. eapply Hpos; eauto.
Qed.

(** ** Callables with positional-or-keyword parameters only *)

Section PositionalOrKeyword.
Variable sig : list Param.
Hypothesis Hpok : all_positional_or_keyword sig.

Lemma pok_in p : In p sig -> kind p = POSITIONAL_OR_KEYWORD.
Proof. intros Hin. unfold all_positional_or_keyword in Hpok.
       rewrite Forall_forall in Hpok. auto. Qed.

Lemma pok_filter (f : Kind -> bool) :
  f POSITIONAL_OR_KEYWORD = true ->
  filter (fun p => f (kind p)) sig = sig.
Proof.
  intros Hf. induction Hpok as [|p l Hp Hl IH]; simpl; auto.
  now rewrite Hp, Hf, IH.
Qed.

Lemma pok_existsb (f : Param -> bool) :
  (forall p, kind p = POSITIONAL_OR_KEYWORD -> f p = false) ->
  existsb f sig = false.
Proof.
  intros Hf. induction Hpok as [|p l Hp Hl IH]; simpl; auto.
  now rewrite Hf, IH.
Qed.

Lemma pok_keyword_names : keyword_names sig = map name sig.
Proof. unfold keyword_names. now rewrite (pok_filter keyword_kind). Qed.

Lemma bind_params_positional_as_keywords all : forall l i args d,
  all_positional_or_keyword l ->
  (forall k p, nth_error l k = Some p ->
               dict_get (name p) d = nth_error args (i + k)) ->
  bind_params all l i args [] = bind_params all l i [] d.
Proof.
  induction l as [|p l IH]; intros i args d Hl Hget; simpl; auto.
  inversion Hl as [|? ? Hp Hl']; subst. rewrite Hp. simpl.
  rewrite (IH (S i) args d Hl').
  - pose proof (Hget 0 p eq_refl) as H0. rewrite Nat.add_0_r in H0.
    rewrite H0.
    replace (nth_error (@nil value) i) with (@None value)
      by now destruct i.
    now destruct (nth_error args i).
  - intros k q Hk. rewrite (Hget (S k) q Hk). f_equal. lia.
Qed.

Lemma bind_params_ext all : forall l i k1 k2,
  all_positional_or_keyword l ->
  (forall p, In p l -> dict_get (name p) k1 = dict_get (name p) k2) ->
  bind_params all l i [] k1 = bind_params all l i [] k2.
Proof.
  induction l as [|p l IH]; intros i k1 k2 Hl Hget; simpl; auto.
  inversion Hl as [|? ? Hp Hl']; subst. rewrite Hp. simpl.
  rewrite (IH (S i) k1 k2 Hl') by (intros q Hq; apply Hget; now right).
  now rewrite (Hget p) by now left.
Qed.

Variable to_camel : string -> string.
Variable function : Callable.
Variable vd : ValidatedFunction.
Hypothesis Hsig : parameters function = sig.
Hypothesis Hinit : outcome (validate_arguments to_camel function) = inr vd.

Lemma pok_arg_mapping j :
  mapping_get j (arg_mapping vd) = option_map name (nth_error sig j).
Proof.
  destruct (init_inv _ _ Hinit) as (_ & _ & Hmap & _).
  rewrite Hmap, init_loop_from, arg_mapping_from, Hsig by reflexivity.
  simpl. rewrite Nat.sub_0_r.
  destruct (nth_error sig j) as [p|] eqn:E; auto.
  rewrite (pok_in p) by (eapply nth_error_In; eauto). reflexivity.
Qed.

Lemma pok_positional_only_args : positional_only_args vd = [].
Proof.
  destruct (init_inv _ _ Hinit) as (_ & _ & _ & Hpo & _).
  assert (Hnone : forall k, set_mem k (positional_only_args vd) = false).
  { intros k.
    rewrite Hpo, init_loop_from, positional_only_from, Hsig. simpl.
    apply pok_existsb. intros p Hp. unfold is_positional_only.
    now rewrite Hp. }
  destruct (positional_only_args vd) as [|k ks]; auto.
  specialize (Hnone k). simpl in Hnone.
  rewrite String.eqb_refl in Hnone. discriminate.
Qed.

Lemma pok_field_names k :
  dict_mem k (__fields__ (model vd)) = set_mem k (map name sig).
Proof.
  destruct (init_inv _ _ Hinit) as (_ & _ & _ & _ & Hf & _).
  now rewrite Hf, init_loop_from, dict_mem_fields_from, Hsig.
Qed.

Lemma pok_no_var_positional :
  existsb is_var_positional (parameters function) = false.
Proof.
  rewrite Hsig. apply pok_existsb. intros p Hp.
  unfold is_var_positional. now rewrite Hp.
Qed.

Lemma pok_no_var_keyword :
  existsb is_var_keyword (parameters function) = false.
Proof.
  rewrite Hsig. apply pok_existsb. intros p Hp.
  unfold is_var_keyword. now rewrite Hp.
Qed.
End PositionalOrKeyword.

(** * The specified behaviour *)

(** ** Declared variadic parameters *)

(** C1, on the code. For [def f(a, b=2, *rest, **kw)] the loop of
    [__init__] records the declared names in [_args_field_name] and
    [_kwargs_field_name], which nothing reads; [args_field_name] and
    [kwargs_field_name] stay ["args"] and ["kwargs"]. The call
    [(1, 2, 3, x=4)] therefore binds the overflow to ["args"] and
    ["kwargs"], not to ["rest"] and ["kw"]; these are not fields of the
    model, the validation refuses them, and [f] is not invoked. *)
Theorem C1_declared_variadic_names_not_used
        (to_camel : string -> string)
        (validate_field : field_info -> value -> option value)
        (call : list value -> dict value -> result) :
  exists vd errors,
    validate_arguments to_camel (mkCallable "f" sig_a_b_rest_kw call)
    = ([ModelBuilt (model vd)], inr vd)
    /\ _args_field_name vd = Some "rest" /\ args_field_name vd = "args"
    /\ _kwargs_field_name vd = Some "kw" /\ kwargs_field_name vd = "kwargs"
    /\ dict_keys (__fields__ (model vd)) = ["a"; "b"; "rest"; "kw"]
    /\ build_values vd [VInt 1; VInt 2; VInt 3] [("x", VInt 4)]
       = ([], inr ([("a", VInt 1); ("b", VInt 2);
                    ("args", VList [VInt 3]);
                    ("kwargs", VDict [("x", VInt 4)])], true, true))
    /\ wrap_call to_camel validate_field
                 (mkCallable "f" sig_a_b_rest_kw call)
                 [VInt 1; VInt 2; VInt 3] [("x", VInt 4)]
       = ([ModelBuilt (model vd)], inl (ValidationError errors))
    /\ In ("args", ExtraError) errors
    /\ In ("kwargs", ExtraError) errors.
Proof.
  destruct (validate_field (Any, Ellipsis) (VInt 1)) as [v1|] eqn:E1;
    destruct (validate_field (Any, Default (VInt 2)) (VInt 2)) as [v2|] eqn:E2;
    (eexists (mkValidatedFunction _ _ _ _ _ _ _ _); eexists;
     split; [reflexivity|];
     repeat (split; [reflexivity|]);
     split; [cbv; rewrite E1, E2; reflexivity|];
     simpl; tauto).
Qed.

(** The same call goes through when the variadic parameters are named
    [args] and [kwargs], the names the binder writes to. *)
Example variadic_named_args_kwargs :
  wrap_basic (def_function "f" sig_a_b_args_kwargs echo)
             [VInt 1; VInt 2; VInt 3] [("x", VInt 4)]
  = ([ModelBuilt (mkModel "f" forbid
                    (map declared_field sig_a_b_args_kwargs));
      Invoked [VInt 1; VInt 2; VInt 3] [("x", VInt 4)]],
     inr (VDict [("a", VInt 1); ("b", VInt 2);
                 ("args", VTuple [VInt 3]);
                 ("kwargs", VDict [("x", VInt 4)])])).
Proof. reflexivity. Qed.

(** C2, as the code has it. The fields of the model are exactly the
    declared parameters, in order. A declared variadic positional parameter
    is a field of type tuple of its annotation, a declared variadic keyword
    parameter a field of type dictionary of its annotation, both with
    default [None]. When no variadic positional (keyword) parameter is
    declared, the name in [args_field_name] ([kwargs_field_name]) is not a
    field of the model, and a call whose arguments overflow into it is
    refused by the validation without reaching the wrapped callable. *)
Theorem C2_variadic_fields_only_when_declared
        (to_camel : string -> string) (function : Callable)
        (vd : ValidatedFunction) :
  outcome (validate_arguments to_camel function) = inr vd ->
  NoDup (map name (parameters function)) ->
  __fields__ (model vd) = map declared_field (parameters function)
  /\ (forall p, In p (parameters function) -> kind p = VAR_POSITIONAL ->
        dict_get (name p) (__fields__ (model vd))
        = Some (TupleOf (annotation_of p), Default VNone))
  /\ (forall p, In p (parameters function) -> kind p = VAR_KEYWORD ->
        dict_get (name p) (__fields__ (model vd))
        = Some (DictStrOf (annotation_of p), Default VNone))
  /\ (existsb is_var_positional (parameters function) = false ->
      dict_mem (args_field_name vd) (__fields__ (model vd)) = false
      /\ forall validate_field args kwargs values hvk,
          outcome (build_values vd args kwargs) = inr (values, true, hvk) ->
          exists errors,
            __call__ validate_field vd args kwargs
            = ([], inl (ValidationError errors)))
  /\ (existsb is_var_keyword (parameters function) = false ->
      dict_mem (kwargs_field_name vd) (__fields__ (model vd)) = false
      /\ forall validate_field args kwargs values hva,
          outcome (build_values vd args kwargs) = inr (values, hva, true) ->
          exists errors,
            __call__ validate_field vd args kwargs
            = ([], inl (ValidationError errors))).
Proof.
  intros Hinit Hnd.
  pose proof (fields_of_init _ _ Hinit Hnd) as Hfields.
  assert (Hkeys : dict_keys (map declared_field (parameters function))
                  = map name (parameters function)).
  { unfold dict_keys. rewrite map_map. apply map_ext.
    apply fst_declared_field. }
  assert (Hget : forall p, In p (parameters function) ->
            dict_get (name p) (__fields__ (model vd))
            = Some (snd (declared_field p))).
  { intros p Hin. rewrite Hfields. apply dict_get_In_NoDup.
    - now rewrite Hkeys.
    - apply in_map_iff. exists p. split; auto.
      rewrite <- (fst_declared_field p). now destruct (declared_field p). }
  destruct (init_inv _ _ Hinit) as (_ & _ & _ & _ & _ & Hc & _).
  split; [exact Hfields|]. split; [|split; [|split]].
  - intros p Hin Hk. rewrite (Hget p Hin).
    unfold declared_field, annotation_of. now rewrite Hk.
  - intros p Hin Hk. rewrite (Hget p Hin).
    unfold declared_field, annotation_of. now rewrite Hk.
  - intros Hno.
    pose proof (args_field_name_not_field _ _ Hinit Hno) as Hnf.
    split; auto. intros vf args kwargs values hvk Hb.
    destruct (build_values_cases vd args kwargs)
      as [H|(vs & a & b & H & Ha & _)].
    + rewrite H in Hb. discriminate.
    + assert (Hb' := Hb). rewrite H in Hb'. simpl in Hb'.
      injection Hb' as Hv Hat Hbt.
      destruct (@overflow_without_field vf vd args kwargs values true hvk
                  (args_field_name vd) Hc Hb) as (errors & Hcall & _); eauto.
      rewrite <- Hv. auto.
  - intros Hno.
    pose proof (kwargs_field_name_not_field _ _ Hinit Hno) as Hnf.
    split; auto. intros vf args kwargs values hva Hb.
    destruct (build_values_cases vd args kwargs)
      as [H|(vs & a & b & H & _ & Hk)].
    + rewrite H in Hb. discriminate.
    + assert (Hb' := Hb). rewrite H in Hb'. simpl in Hb'.
      injection Hb' as Hv Hat Hbt.
      destruct (@overflow_without_field vf vd args kwargs values hva true
                  (kwargs_field_name vd) Hc Hb) as (errors & Hcall & _); eauto.
      rewrite <- Hv. auto.
Qed.

Lemma C2_variadic_fields_witness :
  exists vd,
    outcome (validate_arguments (fun s => s)
               (def_function "f" sig_a_b_rest_kw echo)) = inr vd
    /\ NoDup (map name sig_a_b_rest_kw)
    /\ __fields__ (model vd) = map declared_field sig_a_b_rest_kw.
Proof.
  eexists. split; [reflexivity|]. split; [distinct_names|].
  apply (@C2_variadic_fields_only_when_declared
           (fun s => s) (def_function "f" sig_a_b_rest_kw echo)).
  - reflexivity.
  - distinct_names.
Defined.

(** C2 as stated fails: for [def f(a)] the names in [args_field_name] and
    [kwargs_field_name] are ["args"] and ["kwargs"], and neither is a field
    of the model, whose only field is ["a"]. *)
Lemma C2_no_synthetic_fields_counterexample :
  exists vd,
    validate_arguments (fun s => s) (def_function "f" sig_a echo)
    = ([ModelBuilt (model vd)], inr vd)
    /\ args_field_name vd = "args"
    /\ kwargs_field_name vd = "kwargs"
    /\ dict_keys (__fields__ (model vd)) = ["a"]
    /\ dict_mem (args_field_name vd) (__fields__ (model vd)) = false
    /\ dict_mem (kwargs_field_name vd) (__fields__ (model vd)) = false.
Proof.
  match goal with
  | |- exists vd, ?x = _ /\ _ =>
      let y := eval vm_compute in (outcome x) in
      match y with inr ?v => exists v end
  end.
  repeat split; reflexivity.
Qed.

(** ** A parameter named like the default overflow label *)

(** C3 as stated fails: for [def f(args=1)] the call [(1, 2, 3)] ends in a
    [ValidationError] on ["var__args"], and [f] is not invoked, so it does
    not receive [args=1]. *)
Lemma C3_overflow_rejected_counterexample :
  wrap_basic (def_function "f" sig_args_default echo)
             [VInt 1; VInt 2; VInt 3] []
  = ([ModelBuilt (mkModel "f" forbid [("args", (Any, Default (VInt 1)))])],
     inl (ValidationError [("var__args", ExtraError)]))
  /\ ~ (exists args kwargs,
          In (Invoked args kwargs)
             (trace (wrap_basic (def_function "f" sig_args_default echo)
                                [VInt 1; VInt 2; VInt 3] []))).
Proof.
  split; [reflexivity|].
  intros (args & kwargs & [H|[]]). discriminate.
Qed.

(** C3, as the code has it. For [def f(args=1)], [args_field_name] is the
    reserved label ["var__args"]. The call [(1, 2, 3)] binds [args] to [1]
    and routes the overflow [(2, 3)] to ["var__args"], leaving [args]
    untouched; ["var__args"] is not a field of the model, so the validation
    fails on it and [f] is not invoked. *)
Theorem C3_overflow_routed_to_reserved_label
        (to_camel : string -> string)
        (validate_field : field_info -> value -> option value)
        (call : list value -> dict value -> result) :
  exists vd errors,
    validate_arguments to_camel (mkCallable "f" sig_args_default call)
    = ([ModelBuilt (model vd)], inr vd)
    /\ args_field_name vd = ALT_VAR_ARGS
    /\ dict_keys (__fields__ (model vd)) = ["args"]
    /\ build_values vd [VInt 1; VInt 2; VInt 3] []
       = ([], inr ([("args", VInt 1);
                    ("var__args", VList [VInt 2; VInt 3])], true, false))
    /\ wrap_call to_camel validate_field
                 (mkCallable "f" sig_args_default call)
                 [VInt 1; VInt 2; VInt 3] []
       = ([ModelBuilt (model vd)], inl (ValidationError errors))
    /\ In ("var__args", ExtraError) errors.
Proof.
  destruct (validate_field (Any, Default (VInt 1)) (VInt 1)) as [v1|] eqn:E1;
    (eexists (mkValidatedFunction _ _ _ _ _ _ _ _); eexists;
     split; [reflexivity|];
     repeat (split; [reflexivity|]);
     split; [cbv; rewrite E1; reflexivity|];
     simpl; tauto).
Qed.

(** ** Wrap time *)

(** C4. Wrapping a callable that declares a parameter named [var__args] or
    [var__kwargs] raises [DecoratorSetupError] at wrap time: no model type
    has been built and no call is attempted (the log is empty), and a call
    through [validate_arguments] never gets past the wrapping. Wrapping a
    callable with no such parameter succeeds and builds the model. *)
Theorem C4_reserved_names_rejected_at_wrap_time
        (to_camel : string -> string)
        (validate_field : field_info -> value -> option value)
        (function : Callable) :
  ((exists p, In p (parameters function)
              /\ (name p = ALT_VAR_ARGS \/ name p = ALT_VAR_KWARGS)) ->
   validate_arguments to_camel function = ([], inl DecoratorSetupError)
   /\ forall args kwargs,
       wrap_call to_camel validate_field function args kwargs
       = ([], inl DecoratorSetupError))
  /\ ((forall p, In p (parameters function) ->
                 name p <> ALT_VAR_ARGS /\ name p <> ALT_VAR_KWARGS) ->
      exists vd,
        validate_arguments to_camel function
        = ([ModelBuilt (model vd)], inr vd)).
Proof.
  split.
  - intros (p & Hin & Hname).
    assert (Hres : reserved_name_declared (parameters function) = true).
    { apply existsb_exists. exists p. split; auto.
      destruct Hname as [-> | ->]; rewrite String.eqb_refl;
        auto using orb_true_r. }
    assert (Hinit : validate_arguments to_camel function
                    = ([], inl DecoratorSetupError)).
    { unfold validate_arguments, __init__. now rewrite Hres. }
    split; auto. intros args kwargs. unfold wrap_call. now rewrite Hinit.
  - intros Hnone.
    assert (Hres : reserved_name_declared (parameters function) = false).
    { destruct (reserved_name_declared (parameters function)) eqn:E; auto.
      apply existsb_exists in E as (p & Hin & Hp).
      destruct (Hnone p Hin) as [Ha Hk].
      apply orb_true_iff in Hp as [Hp|Hp]; apply String.eqb_eq in Hp;
        congruence. }
    unfold validate_arguments, __init__. rewrite Hres. simpl.
    match goal with |- exists vd, (_, inr ?x) = _ => exists x end.
    reflexivity.
Qed.

Lemma C4_reserved_names_rejected_witness :
  validate_arguments (fun s => s) (def_function "f" sig_reserved echo)
  = ([], inl DecoratorSetupError)
  /\ exists vd,
      validate_arguments (fun s => s) (def_function "f" sig_a echo)
      = ([ModelBuilt (model vd)], inr vd).
Proof.
  split.
  - apply (C4_reserved_names_rejected_at_wrap_time
             (fun s => s) basic_validator
             (def_function "f" sig_reserved echo)).
    exists (mkParam "var__args" POSITIONAL_OR_KEYWORD None None).
    split; [left; reflexivity | left; reflexivity].
  - apply (C4_reserved_names_rejected_at_wrap_time
             (fun s => s) basic_validator (def_function "f" sig_a echo)).
    intros p [<-|[]]. split; discriminate.
Defined.

(** ** The wrapper against the direct call *)

(** C5, as the code has it. Let [f] be a function whose parameters are all
    positional-or-keyword and let the wrapper be built from it. For every
    call by position and for every call by keyword that the wrapper accepts
    (no keyword is named [self], the name of the wrapper's own first
    parameter) and whose bound values pass the validation unchanged (the
    instance holds each supplied value as it was supplied), the call of the
    wrapper gives what the direct call gives: the same returned value or
    the same exception. *)
Theorem C5_wrapper_equals_direct_call
        (to_camel : string -> string)
        (validate_field : field_info -> value -> option value)
        (fname : string) (sig : list Param) (body : dict value -> result)
        (vd : ValidatedFunction) :
  all_positional_or_keyword sig ->
  NoDup (map name sig) ->
  outcome (validate_arguments to_camel (def_function fname sig body))
  = inr vd ->
  (forall args values hva hvk m,
      outcome (build_values vd args []) = inr (values, hva, hvk) ->
      outcome (model_init validate_field (model vd) values) = inr m ->
      (forall k v, dict_get k values = Some v ->
                   dict_get k (__dict__ m) = Some v) ->
      outcome (call_wrapper validate_field vd args [])
      = to_outcome (apply (def_function fname sig body) args []))
  /\ (forall kwargs values hva hvk m,
         NoDup (dict_keys kwargs) ->
         dict_mem "self" kwargs = false ->
         outcome (build_values vd [] kwargs) = inr (values, hva, hvk) ->
         outcome (model_init validate_field (model vd) values) = inr m ->
         (forall k v, dict_get k values = Some v ->
                      dict_get k (__dict__ m) = Some v) ->
         outcome (call_wrapper validate_field vd [] kwargs)
         = to_outcome (apply (def_function fname sig body) [] kwargs)).
Proof.
  intros Hpok Hnd Hinit.
  set (f := def_function fname sig body) in *.
  assert (Hsig : parameters f = sig) by reflexivity.
  destruct (init_inv _ _ Hinit) as (_ & Hraw & _ & _ & _ & Hc & _).
  pose proof (@pok_positional_only_args sig Hpok to_camel f vd Hsig Hinit)
    as Hpo.
  pose proof (@pok_arg_mapping sig Hpok to_camel f vd Hsig Hinit) as Hmap.
  pose proof (@pok_field_names sig to_camel f vd Hsig Hinit) as Hfn.
  pose proof (args_field_name_not_field _ _ Hinit
                (@pok_no_var_positional sig Hpok f Hsig)) as Hna.
  pose proof (kwargs_field_name_not_field _ _ Hinit
                (@pok_no_var_keyword sig Hpok f Hsig)) as Hnk.
  (* a validated call is made by keyword, from the explicit values *)
  assert (Hcall : forall args kwargs values hva hvk m,
             outcome (build_values vd args kwargs) = inr (values, hva, hvk) ->
             outcome (model_init validate_field (model vd) values) = inr m ->
             build_values vd args kwargs = ([], inr (values, false, false))
             /\ outcome (__call__ validate_field vd args kwargs)
                = to_outcome (apply f [] (explicit_values m))).
  { intros args kwargs values hva hvk m Hb Hm.
    destruct (build_values_cases vd args kwargs)
      as [Hb'|(vs & a & b & Hb' & Ha & Hk)].
    - rewrite Hb' in Hb. discriminate.
    - assert (Hb'' := Hb). rewrite Hb' in Hb''. simpl in Hb''.
      injection Hb'' as Hv Hat Hbt. subst vs a b.
      destruct (model_init_forbid_inv _ _ _ Hc Hm) as (_ & Hmi & Hsub).
      assert (hva = false).
      { destruct hva; auto. specialize (Ha eq_refl). apply Hsub in Ha.
        congruence. }
      assert (hvk = false).
      { destruct hvk; auto. specialize (Hk eq_refl). apply Hsub in Hk.
        congruence. }
      subst hva hvk. split; [exact Hb'|].
      unfold __call__. rewrite Hb', bind_pure_l, Hmi, bind_pure_l.
      rewrite (execute_by_keyword _ _ Hpo), invoke_eq, Hraw.
      reflexivity. }
  (* the explicit values name declared parameters only *)
  assert (Hknown : forall m values,
             outcome (model_init validate_field (model vd) values) = inr m ->
             (forall k v, dict_get k values = Some v ->
                          dict_get k (__dict__ m) = Some v) ->
             existsb (fun kv => negb (set_mem (fst kv) (map name sig)))
                     (explicit_values m) = false).
  { intros m values Hm Hsame.
    destruct (explicit_values_get validate_field _ _ Hc Hm Hsame)
      as (_ & Hkeys & _).
    apply existsb_false_iff. intros [k v] Hin. simpl.
    rewrite <- Hfn.
    assert (Hk : In k (dict_keys (explicit_values m)))
      by (apply in_map_iff; exists (k, v); auto).
    apply Hkeys, dict_mem_In in Hk. now rewrite Hk. }
  assert (Hnovp : existsb is_var_positional sig = false)
    by (rewrite <- Hsig; apply (@pok_no_var_positional sig Hpok f Hsig)).
  assert (Hnovk : existsb is_var_keyword sig = false)
    by (rewrite <- Hsig; apply (@pok_no_var_keyword sig Hpok f Hsig)).
  split.
  - intros args values hva hvk m Hb Hm Hsame.
    change (call_wrapper validate_field vd args [])
      with (__call__ validate_field vd args []).
    destruct (Hcall _ _ _ _ _ _ Hb Hm) as [Hb' Hout]. rewrite Hout.
    destruct (explicit_values_get validate_field _ _ Hc Hm Hsame)
      as (Hget & _ & _).
    rewrite build_values_no_keywords in Hb'.
    assert (Hbp : bind_positional vd 0 args [] = (values, false))
      by (destruct (bind_positional vd 0 args []); simpl in Hb'; congruence).
    assert (Hinj : forall j1 j2 n,
               mapping_get j1 (arg_mapping vd) = Some n ->
               mapping_get j2 (arg_mapping vd) = Some n -> j1 = j2).
    { intros j1 j2 n. rewrite !Hmap, <- !nth_error_map. intros H1 H2.
      apply (proj1 (NoDup_nth_error (map name sig)) Hnd).
      - apply nth_error_Some. congruence.
      - congruence. }
    destruct (bind_positional_get vd Hinj args 0 [] Hbp) as [Hrange Hvals].
    assert (Hlen : List.length args <= List.length sig).
    { destruct (Nat.le_gt_cases (List.length args) (List.length sig))
        as [|Hgt]; auto.
      exfalso. apply (Hrange (List.length sig)); [lia|].
      rewrite Hmap. now rewrite (proj2 (nth_error_None sig _)) by lia. }
    f_equal. unfold f, def_function, apply, py_bind.
    rewrite (pok_filter Hpok positional_kind eq_refl), Hnovp, Hnovk.
    rewrite (pok_keyword_names Hpok), (Hknown _ _ Hm Hsame).
    replace (Nat.ltb (List.length sig) (List.length args)) with false
      by (symmetry; apply Nat.ltb_ge; lia).
    simpl.
    rewrite <- (@bind_params_positional_as_keywords sig sig 0 args
                  (explicit_values m) Hpok);
      [reflexivity|].
    intros k p Hk. rewrite Hget.
    rewrite (Hvals k (name p)) by (rewrite Hmap, Hk; reflexivity).
    simpl. rewrite Nat.sub_0_r.
    destruct (Nat.ltb_spec k (List.length args)); auto.
    symmetry. now apply nth_error_None.
  - intros kwargs values hva hvk m Hndk Hself Hb Hm Hsame.
    unfold call_wrapper. rewrite Hself.
    destruct (Hcall _ _ _ _ _ _ Hb Hm) as [Hb' Hout]. rewrite Hout.
    destruct (explicit_values_get validate_field _ _ Hc Hm Hsame)
      as (Hget & _ & _).
    rewrite build_values_no_positional in Hb'.
    destruct (bind_keywords_cases vd kwargs [] [])
      as [Hk|(vs & vk & Hk & _)]; rewrite Hk in Hb'; simpl in Hb';
      [discriminate|].
    destruct vk as [|kv vk]; simpl in Hb'; [|discriminate].
    injection Hb' as Hvs. subst vs.
    pose proof (bind_keywords_get vd kwargs [] [] Hndk Hk) as Hkw.
    destruct (bind_keywords_overflow vd kwargs [] [] Hk) as [_ Hover].
    assert (Hfields : forall k, In k (dict_keys kwargs) ->
                                dict_mem k (__fields__ (model vd)) = true).
    { intros k Hin. destruct (dict_mem k (__fields__ (model vd))) eqn:E; auto.
      specialize (Hover k Hin E). discriminate. }
    f_equal. unfold f, def_function, apply, py_bind.
    rewrite Hnovk, (pok_keyword_names Hpok), (Hknown _ _ Hm Hsame).
    replace (existsb (fun kv => negb (set_mem (fst kv) (map name sig))) kwargs)
      with false.
    + simpl.
      rewrite (@bind_params_ext sig sig 0 (explicit_values m) kwargs Hpok);
        [reflexivity|].
      intros p Hp. rewrite Hget, Hkw, Hfn.
      replace (set_mem (name p) (map name sig)) with true
        by (symmetry; apply set_mem_In; now apply in_map).
      simpl. now destruct (dict_get (name p) kwargs).
    + symmetry. apply existsb_false_iff. intros [k v] Hin. simpl.
      rewrite <- Hfn, Hfields; auto.
      apply in_map_iff. exists (k, v). auto.
Qed.

Lemma C5_wrapper_equals_direct_call_witness :
  exists vd,
    outcome (validate_arguments (fun s => s) (def_function "f" sig_a_b echo))
    = inr vd
    /\ outcome (call_wrapper basic_validator vd [VInt 1] [])
       = to_outcome (apply (def_function "f" sig_a_b echo) [VInt 1] [])
    /\ outcome (call_wrapper basic_validator vd []
                             [("b", VInt 7); ("a", VInt 1)])
       = to_outcome (apply (def_function "f" sig_a_b echo) []
                           [("b", VInt 7); ("a", VInt 1)]).
Proof.
  eexists. split; [reflexivity|].
  assert (Hpok : all_positional_or_keyword sig_a_b)
    by (repeat constructor).
  assert (Hnd : NoDup (map name sig_a_b)) by distinct_names.
  destruct (@C5_wrapper_equals_direct_call
              (fun s => s) basic_validator "f" sig_a_b echo _
              Hpok Hnd eq_refl) as [Hp Hk].
  split.
  - eapply Hp.
    + reflexivity.
    + reflexivity.
    + intros k v. simpl.
      destruct (String.eqb k "a"); [auto | discriminate].
  - eapply Hk.
    + distinct_names.
    + reflexivity.
    + reflexivity.
    + reflexivity.
    + intros k v. simpl.
      destruct (String.eqb_spec k "b") as [Hb|Hb];
        destruct (String.eqb_spec k "a") as [Ha|Ha];
        try discriminate; auto; congruence.
Defined.

(** C5 as stated fails for a keyword named [self]: [def f(self, x)] has
    only positional-or-keyword parameters, and the values bound for
    [self=1, x=2] pass the validation unchanged; the direct call returns,
    while the call of the wrapper with the same keywords raises
    [TypeError], because [self] is also the name of the first parameter of
    [__call__]. *)
Lemma C5_keyword_named_self_counterexample :
  let f := def_function "f" sig_self_x echo in
  let kwargs := [("self", VInt 1); ("x", VInt 2)] in
  exists vd m,
    all_positional_or_keyword sig_self_x
    /\ NoDup (map name sig_self_x)
    /\ outcome (validate_arguments (fun s => s) f) = inr vd
    /\ NoDup (dict_keys kwargs)
    /\ outcome (build_values vd [] kwargs) = inr (kwargs, false, false)
    /\ outcome (model_init basic_validator (model vd) kwargs) = inr m
    /\ (forall k v, dict_get k kwargs = Some v ->
                    dict_get k (__dict__ m) = Some v)
    /\ to_outcome (apply f [] kwargs) = inr (VDict kwargs)
    /\ outcome (call_wrapper basic_validator vd [] kwargs) = inl TypeError
    /\ outcome (call_wrapper basic_validator vd [] kwargs)
       <> to_outcome (apply f [] kwargs).
Proof.
  intros f kwargs.
  eexists (mkValidatedFunction _ _ _ _ _ _ _ _), (mkInstance _ _).
  split.
  { repeat constructor. }
  split.
  { repeat constructor; simpl; intuition discriminate. }
  split; [reflexivity|]. split.
  { repeat constructor; simpl; intuition discriminate. }
  split; [reflexivity|]. split; [reflexivity|]. split.
  { intros k v H. exact H. }
  split; [reflexivity|]. split; [reflexivity|]. discriminate.
Qed.

(** ** Call time: reconstruction *)

(** C6. For [def f(a, /, b)] the call [(1, b=2)] through the wrapper
    invokes [f] exactly as [f(1, b=2)], whenever the validator accepts the
    unannotated fields as they are. In general, when no positional overflow
    was bound and the callable has positional-only parameters, the
    explicitly set fields that are positional-only are passed positionally,
    in field order, and every other explicitly set field is passed by
    keyword. *)
Theorem C6_positional_only_reconstruction
        (to_camel : string -> string)
        (validate_field : field_info -> value -> option value)
        (call : list value -> dict value -> result) :
  (forall d v, validate_field (Any, d) v = Some v) ->
  wrap_call to_camel validate_field (mkCallable "f" sig_a_posonly_b call)
            [VInt 1] [("b", VInt 2)]
  = ([ModelBuilt (mkModel (to_camel "f") forbid
                    (map declared_field sig_a_posonly_b));
      Invoked [VInt 1] [("b", VInt 2)]],
     to_outcome (call [VInt 1] [("b", VInt 2)]))
  /\ forall self m,
      positional_only_args self <> [] ->
      execute self m false false
      = invoke (raw_function self)
          (map snd (filter (fun kv =>
                              set_mem (fst kv) (positional_only_args self))
                           (explicit_values m)))
          (dict_update []
             (filter (fun kv =>
                        negb (set_mem (fst kv) (positional_only_args self)))
                     (explicit_values m))).
Proof.
  intros Hany. split.
  - cbv - [to_outcome]. rewrite !Hany. cbv - [to_outcome].
    now destruct (call [VInt 1] [("b", VInt 2)]).
  - intros self m Hpo. unfold execute. rewrite bind_ret_l.
    destruct (positional_only_args self) as [|n ns] eqn:E; [congruence|].
    rewrite <- E.
    change (@nil (value * value)) with (as_items []).
    rewrite split_positional_only_spec. simpl fst. simpl snd.
    apply call_raw_function_eq.
Qed.

Lemma C6_positional_only_reconstruction_witness :
  (forall d v, basic_validator (Any, d) v = Some v)
  /\ wrap_call (fun s => s) basic_validator
               (mkCallable "f" sig_a_posonly_b (fun _ _ => Return VNone))
               [VInt 1] [("b", VInt 2)]
     = ([ModelBuilt (mkModel "f" forbid (map declared_field sig_a_posonly_b));
         Invoked [VInt 1] [("b", VInt 2)]],
        inr VNone).
Proof.
  assert (Hany : forall d v, basic_validator (Any, d) v = Some v).
  { intros d v. unfold basic_validator. simpl.
    destruct v; try reflexivity. destruct d as [|[]]; reflexivity. }
  split; [exact Hany|].
  apply (@C6_positional_only_reconstruction
           (fun s => s) basic_validator (fun _ _ => Return VNone) Hany).
Defined.

(** C7, on the code. For [def f(a, *rest, args=5)] the call [(1, 2, 3)]
    omits the keyword-only parameter [args], which has a declared default.
    The binder stores the positional overflow under ["args"], so the
    explicitly set values of the instance contain ["args"], with the
    overflow as its value. *)
Theorem C7_omitted_default_among_explicit_values :
  exists vd m,
    validate_arguments (fun s => s)
                       (def_function "f" sig_a_rest_kwonly_args echo)
    = ([ModelBuilt (model vd)], inr vd)
    /\ args_field_name vd = "args"
    /\ build_values vd [VInt 1; VInt 2; VInt 3] []
       = ([], inr ([("a", VInt 1); ("args", VList [VInt 2; VInt 3])],
                   true, false))
    /\ model_init basic_validator (model vd)
                  [("a", VInt 1); ("args", VList [VInt 2; VInt 3])]
       = ([], inr m)
    /\ __fields_set__ m = ["a"; "args"]
    /\ explicit_values m
       = [("a", VInt 1); ("args", VList [VInt 2; VInt 3])]
    /\ wrap_basic (def_function "f" sig_a_rest_kwonly_args echo)
                  [VInt 1; VInt 2; VInt 3] []
       = ([ModelBuilt (model vd); Invoked [VInt 1; VInt 2; VInt 3] []],
          inr (VDict [("a", VInt 1); ("rest", VTuple [VInt 2; VInt 3]);
                      ("args", VInt 5)])).
Proof.
  eexists (mkValidatedFunction _ _ _ _ _ _ _ _).
  eexists (mkInstance _ _).
  repeat (split; [reflexivity|]). reflexivity.
Qed.

(** ** Call time: errors *)

(** C8. When a keyword argument names a declared field that belongs to
    [positional_only_args], [build_values] raises [NotImplementedError], an
    error of its own kind (it is not a [ValidationError]). The call of the
    wrapper raises it too, unless a keyword is named [self]: such a call is
    refused even earlier, when its arguments are bound to the parameters of
    [__call__]. Either way the call raises, and the wrapped callable is not
    invoked. *)
Theorem C8_keyword_for_positional_only_raises
        (to_camel : string -> string)
        (validate_field : field_info -> value -> option value)
        (function : Callable) (vd : ValidatedFunction)
        (args : list value) (kwargs : dict value) (k : string) :
  outcome (validate_arguments to_camel function) = inr vd ->
  In k (dict_keys kwargs) ->
  set_mem k (positional_only_args vd) = true ->
  dict_mem k (__fields__ (model vd)) = true
  /\ build_values vd args kwargs = ([], inl NotImplementedError)
  /\ (dict_mem "self" kwargs = false ->
      call_wrapper validate_field vd args kwargs
      = ([], inl NotImplementedError))
  /\ (exists e, call_wrapper validate_field vd args kwargs = ([], inl e))
  /\ never_invoked (call_wrapper validate_field vd args kwargs)
  /\ (forall errors, NotImplementedError <> ValidationError errors).
Proof.
  intros Hinit Hin Hpo.
  assert (Hsub : forall k', set_mem k' (positional_only_args vd) = true ->
                            dict_mem k' (__fields__ (model vd)) = true)
    by (intros k'; apply (positional_only_is_field _ _ _ Hinit)).
  assert (Hb : build_values vd args kwargs = ([], inl NotImplementedError)).
  { unfold build_values.
    destruct (match args with
              | [] => ([], false)
              | _ :: _ => bind_positional vd 0 args []
              end) as [values hva].
    now rewrite (bind_keywords_positional_only vd kwargs values [] k Hsub). }
  assert (Hbody : __call__ validate_field vd args kwargs
                  = ([], inl NotImplementedError))
    by (unfold __call__; now rewrite Hb).
  assert (Hcases : call_wrapper validate_field vd args kwargs
                   = ([], inl (if dict_mem "self" kwargs
                               then TypeError else NotImplementedError))).
  { unfold call_wrapper. destruct (dict_mem "self" kwargs); auto. }
  split; [auto|]. split; [exact Hb|]. split; [|split; [|split]].
  - intros Hself. now rewrite Hcases, Hself.
  - rewrite Hcases. eexists. reflexivity.
  - unfold never_invoked. now rewrite Hcases.
  - discriminate.
Qed.

Lemma C8_keyword_for_positional_only_witness :
  exists vd,
    outcome (validate_arguments (fun s => s)
               (def_function "f" sig_a_posonly_b echo)) = inr vd
    /\ build_values vd [VInt 1] [("a", VInt 2)]
       = ([], inl NotImplementedError)
    /\ call_wrapper basic_validator vd [VInt 1] [("a", VInt 2)]
       = ([], inl NotImplementedError).
Proof.
  eexists. split; [reflexivity|].
  destruct (@C8_keyword_for_positional_only_raises
              (fun s => s) basic_validator
              (def_function "f" sig_a_posonly_b echo) _
              [VInt 1] [("a", VInt 2)] "a" eq_refl
              (or_introl eq_refl) eq_refl)
    as (_ & Hb & Hcall & _).
  split; [exact Hb | exact (Hcall eq_refl)].
Defined.

(** C9. For a call whose arguments were bound: if the validation of the
    bound values fails, its error is what the call raises, and nothing was
    invoked; if it succeeds, the call either raises while the arguments are
    reassembled, with nothing invoked, or invokes the wrapped callable
    exactly once, and then what the callable returns or raises is what the
    caller gets, unchanged. *)
Theorem C9_failures_propagate
        (validate_field : field_info -> value -> option value)
        (self : ValidatedFunction) (args : list value) (kwargs : dict value)
        (values : dict value) (has_var_args has_var_kwargs : bool) :
  outcome (build_values self args kwargs)
  = inr (values, has_var_args, has_var_kwargs) ->
  (forall e,
      outcome (model_init validate_field (model self) values) = inl e ->
      __call__ validate_field self args kwargs = ([], inl e)
      /\ never_invoked (__call__ validate_field self args kwargs))
  /\ (forall m,
         outcome (model_init validate_field (model self) values) = inr m ->
         (exists e, __call__ validate_field self args kwargs = ([], inl e))
         \/ (exists args_ kwargs_,
                trace (__call__ validate_field self args kwargs)
                = [Invoked args_ kwargs_]
                /\ outcome (__call__ validate_field self args kwargs)
                   = to_outcome (apply (raw_function self) args_ kwargs_))).
Proof.
  intros Hb.
  assert (Hbv : build_values self args kwargs
                = ([], inr (values, has_var_args, has_var_kwargs))).
  { destruct (build_values_cases self args kwargs)
      as [H|(vs & a & b & H & _)]; rewrite H in Hb |- *; simpl in Hb.
    - discriminate.
    - now inversion Hb. }
  unfold __call__. rewrite Hbv. simpl.
  pose proof (model_init_trace validate_field (model self) values) as Ht.
  destruct (model_init validate_field (model self) values) as [l [e|m]].
  all: unfold trace in Ht; simpl in Ht; subst l; simpl.
  - split; [|intros m' Hm'; discriminate].
    intros e' He'. inversion He'; subst. split; reflexivity.
  - split; [intros e He; discriminate|].
    intros m' Hm'. inversion Hm'; subst m'.
    destruct (execute_cases self m has_var_args has_var_kwargs)
      as [[e He]|(a & k & Hex)]; rewrite ?He, ?Hex.
    + left. exists e. reflexivity.
    + right. exists a, k. split; reflexivity.
Qed.

Lemma C9_failures_propagate_witness :
  exists vd,
    outcome (validate_arguments (fun s => s) (def_function "f" sig_a echo))
    = inr vd
    /\ outcome (build_values vd [] []) = inr ([], false, false)
    /\ __call__ basic_validator vd [] []
       = ([], inl (ValidationError [("a", MissingError)])).
Proof.
  eexists. split; [reflexivity|]. split; [reflexivity|].
  apply (@C9_failures_propagate basic_validator _ [] [] [] false false).
  - reflexivity.
  - reflexivity.
Defined.

(** ** A parameter supplied twice *)

(** C10 as stated fails for a positional-only parameter: for
    [def f(a, /)] the call [(1, a=2)] supplies [a] positionally and by
    keyword, and the binder raises [NotImplementedError]; no values map is
    produced in which the keyword value could win. *)
Lemma C10_positional_only_counterexample :
  exists vd,
    validate_arguments (fun s => s) (def_function "f" sig_a_posonly echo)
    = ([ModelBuilt (model vd)], inr vd)
    /\ mapping_get 0 (arg_mapping vd) = Some "a"
    /\ dict_mem "a" (__fields__ (model vd)) = true
    /\ build_values vd [VInt 1] [("a", VInt 2)]
       = ([], inl NotImplementedError).
Proof.
  eexists (mkValidatedFunction _ _ _ _ _ _ _ _).
  repeat (split; [reflexivity|]). reflexivity.
Qed.

(** C10, as the code has it. When a positional-or-keyword parameter is
    supplied both positionally and by keyword, and no keyword names a
    positional-only parameter, the binder raises nothing: the positional
    index of the parameter maps to its name, and after the keyword pass the
    values map holds the keyword value under that name. (The parameter is
    taken to be another one than the name the keyword overflow is stored
    under.) *)
Theorem C10_keyword_value_wins
        (to_camel : string -> string) (function : Callable)
        (vd : ValidatedFunction) (args : list value) (kwargs : dict value)
        (i : nat) (p : Param) (v : value) :
  outcome (validate_arguments to_camel function) = inr vd ->
  NoDup (dict_keys kwargs) ->
  nth_error (parameters function) i = Some p ->
  kind p = POSITIONAL_OR_KEYWORD ->
  i < List.length args ->
  dict_get (name p) kwargs = Some v ->
  (forall k, In k (dict_keys kwargs) ->
             set_mem k (positional_only_args vd) = false) ->
  name p <> kwargs_field_name vd ->
  mapping_get i (arg_mapping vd) = Some (name p)
  /\ exists values has_var_args has_var_kwargs,
      build_values vd args kwargs
      = ([], inr (values, has_var_args, has_var_kwargs))
      /\ dict_get (name p) values = Some v.
Proof.
  intros Hinit Hnd Hnth Hkind Hlen Hget Hpo Hne.
  destruct (init_inv _ _ Hinit) as (_ & _ & Hmap & _ & Hf & _).
  split.
  - rewrite Hmap, init_loop_from, arg_mapping_from by reflexivity.
    simpl. rewrite Nat.sub_0_r, Hnth, Hkind. reflexivity.
  - assert (Hfield : dict_mem (name p) (__fields__ (model vd)) = true).
    { rewrite Hf, init_loop_from, dict_mem_fields_from. simpl.
      apply set_mem_In, in_map. eapply nth_error_In; eauto. }
    unfold build_values.
    destruct (match args with
              | [] => ([], false)
              | _ :: _ => bind_positional vd 0 args []
              end) as [values0 hva].
    destruct (bind_keywords_ok vd kwargs values0 [] Hpo) as (vs & vk & Hb).
    rewrite Hb. simpl.
    pose proof (bind_keywords_get vd kwargs values0 [] Hnd Hb (name p)) as Hg.
    rewrite Hfield, Hget in Hg.
    destruct vk as [|kv vk]; simpl.
    + exists vs, hva, false. split; auto.
    + exists (dict_set (kwargs_field_name vd) (VDict (kv :: vk)) vs), hva, true.
      split; auto. now rewrite dict_get_set_neq.
Qed.

Lemma C10_keyword_value_wins_witness :
  exists vd,
    outcome (validate_arguments (fun s => s) (def_function "f" sig_a echo))
    = inr vd
    /\ exists values has_var_args has_var_kwargs,
        build_values vd [VInt 1] [("a", VInt 2)]
        = ([], inr (values, has_var_args, has_var_kwargs))
        /\ dict_get "a" values = Some (VInt 2).
Proof.
  eexists. split; [reflexivity|].
  apply (@C10_keyword_value_wins
           (fun s => s) (def_function "f" sig_a echo) _
           [VInt 1] [("a", VInt 2)] 0
           (mkParam "a" POSITIONAL_OR_KEYWORD None None) (VInt 2)).
  - reflexivity.
  - distinct_names.
  - reflexivity.
  - reflexivity.
  - simpl. lia.
  - reflexivity.
  - intros k [<-|[]]. reflexivity.
  - discriminate.
Defined.

(** A direct call rejects the duplicate. *)
Example direct_call_rejects_duplicate :
  apply (def_function "f" sig_a echo) [VInt 1] [("a", VInt 2)]
  = Raise TypeError.
Proof. reflexivity. Qed.

(** With [def f(kwargs, **kw)] the keyword overflow is stored under
    ["kwargs"] after the keyword pass. *)
Example keyword_overflow_stored_under_kwargs :
  exists vd,
    outcome (validate_arguments (fun s => s)
               (def_function "f" sig_kwargs_kw echo)) = inr vd
    /\ kwargs_field_name vd = "kwargs"
    /\ build_values vd [VInt 1] [("kwargs", VInt 2); ("x", VInt 3)]
       = ([], inr ([("kwargs", VDict [("x", VInt 3)])], false, true)).
Proof.
  eexists (mkValidatedFunction _ _ _ _ _ _ _ _).
  repeat (split; [reflexivity|]). reflexivity.
Qed.

(** * Further properties of the code *)

(** ** What [__init__] records *)

(** X1. After a successful [__init__], [arg_mapping] sends an index to the
    name of the parameter declared at that index exactly when that
    parameter is positional-only or positional-or-keyword; every other
    index, and every index past the last parameter, has no entry. *)
Theorem arg_mapping_of_init
        (to_camel : string -> string) (function : Callable)
        (vd : ValidatedFunction) (j : nat) :
  outcome (validate_arguments to_camel function) = inr vd ->
  mapping_get j (arg_mapping vd) =
  match nth_error (parameters function) j with
  | Some p => if positional_kind (kind p) then Some (name p) else None
  | None => None
  end.
Proof.
  intros Hinit.
  destruct (init_inv _ _ Hinit) as (_ & _ & Hmap & _).
  rewrite Hmap, init_loop_from, arg_mapping_from by reflexivity.
  simpl. now rewrite Nat.sub_0_r.
Qed.

Lemma arg_mapping_of_init_witness :
  exists vd,
    outcome (validate_arguments (fun s => s)
               (def_function "f" sig_a_rest_kwonly_args echo)) = inr vd
    /\ mapping_get 0 (arg_mapping vd) = Some "a"
    /\ mapping_get 1 (arg_mapping vd) = None
    /\ mapping_get 2 (arg_mapping vd) = None.
Proof.
  eexists. split; [reflexivity|].
  pose proof (@arg_mapping_of_init (fun s => s)
                (def_function "f" sig_a_rest_kwonly_args echo) _ 0 eq_refl)
    as H0.
  pose proof (@arg_mapping_of_init (fun s => s)
                (def_function "f" sig_a_rest_kwonly_args echo) _ 1 eq_refl)
    as H1.
  pose proof (@arg_mapping_of_init (fun s => s)
                (def_function "f" sig_a_rest_kwonly_args echo) _ 2 eq_refl)
    as H2.
  exact (conj H0 (conj H1 H2)).
Defined.

(** X2. After a successful [__init__], a name is in the set
    [positional_only_args] exactly when some declared parameter of kind
    positional-only has that name; every name in the set is a field of the
    model. *)
Theorem positional_only_args_of_init
        (to_camel : string -> string) (function : Callable)
        (vd : ValidatedFunction) :
  outcome (validate_arguments to_camel function) = inr vd ->
  (forall k,
      set_mem k (positional_only_args vd) = true
      <-> exists p, In p (parameters function)
                    /\ kind p = POSITIONAL_ONLY /\ name p = k)
  /\ (forall k, set_mem k (positional_only_args vd) = true ->
                dict_mem k (__fields__ (model vd)) = true).
Proof.
  intros Hinit.
  destruct (init_inv _ _ Hinit) as (_ & _ & _ & Hpo & _).
  split.
  - intros k. rewrite Hpo, init_loop_from, positional_only_from. simpl.
    rewrite existsb_exists. split.
    + intros (p & Hin & Hp). apply andb_true_iff in Hp as [Hkind Hname].
      exists p. split; [exact Hin|]. split.
      * unfold is_positional_only in Hkind.
        destruct (kind p); try discriminate; reflexivity.
      * symmetry. now apply String.eqb_eq.
    + intros (p & Hin & Hkind & Hname). exists p. split; [exact Hin|].
      unfold is_positional_only. rewrite Hkind, <- Hname.
      now rewrite String.eqb_refl.
  - intros k. apply (positional_only_is_field _ _ _ Hinit).
Qed.

Lemma positional_only_args_of_init_witness :
  exists vd,
    outcome (validate_arguments (fun s => s)
               (def_function "f" sig_a_posonly_b echo)) = inr vd
    /\ set_mem "a" (positional_only_args vd) = true
    /\ dict_mem "a" (__fields__ (model vd)) = true.
Proof.
  eexists. split; [reflexivity|].
  destruct (@positional_only_args_of_init (fun s => s)
              (def_function "f" sig_a_posonly_b echo) _ eq_refl)
    as [Hiff Hfield].
  pose proof (proj2 (Hiff "a")
                (ex_intro _ (mkParam "a" POSITIONAL_ONLY None None)
                   (conj (or_introl eq_refl) (conj eq_refl eq_refl))))
    as Hin.
  split; [exact Hin | exact (Hfield "a" Hin)].
Defined.

(** X3. After a successful [__init__], [args_field_name] is ["var__args"]
    exactly when no variadic positional parameter is declared and some
    parameter is named ["args"], and ["args"] otherwise; likewise
    [kwargs_field_name] is ["var__kwargs"] exactly when no variadic keyword
    parameter is declared and some parameter is named ["kwargs"], and
    ["kwargs"] otherwise. The two labels are never the same name. *)
Theorem overflow_labels_of_init
        (to_camel : string -> string) (function : Callable)
        (vd : ValidatedFunction) :
  outcome (validate_arguments to_camel function) = inr vd ->
  args_field_name vd
  = (if negb (existsb is_var_positional (parameters function))
        && set_mem "args" (map name (parameters function))
     then ALT_VAR_ARGS else "args")
  /\ kwargs_field_name vd
     = (if negb (existsb is_var_keyword (parameters function))
           && set_mem "kwargs" (map name (parameters function))
        then ALT_VAR_KWARGS else "kwargs")
  /\ args_field_name vd <> kwargs_field_name vd.
Proof.
  intros Hinit.
  destruct (init_inv _ _ Hinit) as (_ & _ & _ & _ & _ & _ & Ha & Hk).
  rewrite init_loop_from, allows_var_args_from, dict_mem_fields_from in Ha.
  rewrite init_loop_from, allows_var_kwargs_from, dict_mem_fields_from in Hk.
  simpl in Ha, Hk.
  split; [exact Ha|]. split; [exact Hk|].
  rewrite Ha, Hk.
  destruct (negb _ && _); destruct (negb _ && _); discriminate.
Qed.

Lemma overflow_labels_of_init_witness :
  exists vd,
    outcome (validate_arguments (fun s => s)
               (def_function "f" sig_args_default echo)) = inr vd
    /\ args_field_name vd = ALT_VAR_ARGS
    /\ kwargs_field_name vd = "kwargs".
Proof.
  eexists. split; [reflexivity|].
  destruct (@overflow_labels_of_init (fun s => s)
              (def_function "f" sig_args_default echo) _ eq_refl)
    as (Ha & Hk & _).
  split; [exact Ha | exact Hk].
Defined.

(** ** What [build_values] returns *)

Lemma bind_keywords_closed_form self : forall kwargs values var_kwargs,
  existsb (fun kv => dict_mem (fst kv) (__fields__ (model self))
                     && set_mem (fst kv) (positional_only_args self))
          kwargs = false ->
  bind_keywords self kwargs values var_kwargs
  = ([], inr (dict_update values
                (filter (fun kv =>
                           dict_mem (fst kv) (__fields__ (model self)))
                        kwargs),
              dict_update var_kwargs
                (filter (fun kv =>
                           negb (dict_mem (fst kv)
                                          (__fields__ (model self))))
                        kwargs))).
Proof.
  induction kwargs as [|[k v] rest IH]; intros values var_kwargs Hno.
  - reflexivity.
  - simpl in Hno. apply orb_false_iff in Hno as [Hk Hrest]. simpl.
    destruct (dict_mem k (__fields__ (model self))); simpl in *.
    + rewrite Hk. now apply IH.
    + now apply IH.
Qed.

Lemma bind_keywords_raises self : forall kwargs values var_kwargs,
  existsb (fun kv => dict_mem (fst kv) (__fields__ (model self))
                     && set_mem (fst kv) (positional_only_args self))
          kwargs = true ->
  bind_keywords self kwargs values var_kwargs
  = ([], inl NotImplementedError).
Proof.
  induction kwargs as [|[k v] rest IH]; intros values var_kwargs Hex.
  - discriminate.
  - simpl in Hex. simpl.
    destruct (dict_mem k (__fields__ (model self))); simpl in *.
    + destruct (set_mem k (positional_only_args self)); auto.
    + now apply IH.
Qed.

Lemma bind_positional_guard self args :
  match args with
  | [] => ([], false)
  | _ :: _ => bind_positional self 0 args []
  end = bind_positional self 0 args [].
Proof. now destruct args. Qed.

Lemma dict_update_nil_iff {V} (l : dict V) :
  dict_update [] l = [] <-> l = [].
Proof.
  split; [|now intros ->].
  destruct l as [|[k v] l]; auto. unfold dict_update. simpl. intros H.
  assert (Hmem : dict_mem k (fold_left
                   (fun acc kv => dict_set (fst kv) (snd kv) acc) l [(k, v)])
                 = true).
  { assert (Hgen : forall (l0 : dict V) d, dict_mem k d = true ->
               dict_mem k (fold_left
                 (fun acc kv => dict_set (fst kv) (snd kv) acc) l0 d) = true).
    { induction l0 as [|[k0 v0] l0 IH0]; intros d Hd; simpl; auto.
      apply IH0. rewrite dict_mem_set, Hd. apply orb_true_r. }
    apply Hgen. unfold dict_mem. simpl. now rewrite String.eqb_refl. }
  rewrite H in Hmem. discriminate.
Qed.

(** X4. When no keyword names a field that is positional-only,
    [build_values] returns, logging nothing. Its values are the result of
    the positional walk, updated in order with the keywords that name
    fields; the keywords that name no field form the overflow map, in
    order. If the overflow map is not empty it is stored last, under
    [kwargs_field_name], and [has_var_kwargs] is set; [has_var_args] is the
    flag of the positional walk. *)
Theorem build_values_closed_form
        (self : ValidatedFunction) (args : list value)
        (kwargs : dict value) :
  existsb (fun kv => dict_mem (fst kv) (__fields__ (model self))
                     && set_mem (fst kv) (positional_only_args self))
          kwargs = false ->
  let is_field :=
    fun kv : string * value =>
      dict_mem (fst kv) (__fields__ (model self)) in
  let positional := bind_positional self 0 args [] in
  let values := dict_update (fst positional) (filter is_field kwargs) in
  let var_kwargs :=
    dict_update [] (filter (fun kv => negb (is_field kv)) kwargs) in
  build_values self args kwargs
  = ([], inr (match var_kwargs with
              | [] => values
              | _ :: _ =>
                  dict_set (kwargs_field_name self) (VDict var_kwargs) values
              end,
              snd positional,
              match var_kwargs with [] => false | _ :: _ => true end)).
Proof.
  intros Hno is_field positional values var_kwargs.
  unfold build_values. rewrite bind_positional_guard.
  fold positional. destruct positional as [values0 hva] eqn:Hp.
  rewrite (bind_keywords_closed_form self kwargs values0 [] Hno).
  rewrite bind_pure_l.
  subst values var_kwargs is_field. simpl fst. simpl snd.
  now destruct (dict_update [] _).
Qed.

Lemma build_values_closed_form_witness :
  exists vd,
    outcome (validate_arguments (fun s => s)
               (def_function "f" sig_a_b_args_kwargs echo)) = inr vd
    /\ build_values vd [VInt 1] [("x", VInt 4); ("b", VInt 5); ("y", VInt 6)]
       = ([], inr ([("a", VInt 1); ("b", VInt 5);
                    ("kwargs", VDict [("x", VInt 4); ("y", VInt 6)])],
                   false, true)).
Proof.
  eexists. split; [reflexivity|].
  match goal with
  | |- build_values ?v ?a ?k = _ =>
      exact (@build_values_closed_form v a k eq_refl)
  end.
Defined.

Lemma existsb_filter_nonempty {A} (f : A -> bool) (l : list A) :
  existsb f l = match filter f l with [] => false | _ :: _ => true end.
Proof.
  induction l as [|a l IH]; simpl; auto.
  destruct (f a); simpl; auto.
Qed.

(** X5. [build_values] raises [NotImplementedError] exactly when some
    keyword names a field that is in [positional_only_args]; it raises
    nothing else, and the flag [has_var_kwargs] it returns tells exactly
    whether some keyword names no field. *)
Theorem build_values_raises_iff
        (self : ValidatedFunction) (args : list value)
        (kwargs : dict value) :
  (build_values self args kwargs = ([], inl NotImplementedError)
   <-> existsb (fun kv => dict_mem (fst kv) (__fields__ (model self))
                          && set_mem (fst kv) (positional_only_args self))
               kwargs = true)
  /\ (forall e, outcome (build_values self args kwargs) = inl e ->
                e = NotImplementedError)
  /\ (forall values has_var_args has_var_kwargs,
         outcome (build_values self args kwargs)
         = inr (values, has_var_args, has_var_kwargs) ->
         has_var_kwargs
         = existsb (fun kv => negb (dict_mem (fst kv)
                                             (__fields__ (model self))))
                   kwargs).
Proof.
  destruct (existsb (fun kv => dict_mem (fst kv) (__fields__ (model self))
                               && set_mem (fst kv)
                                          (positional_only_args self))
                    kwargs) eqn:Hex.
  - assert (Hb : build_values self args kwargs
                 = ([], inl NotImplementedError)).
    { unfold build_values.
      destruct (match args with
                | [] => ([], false)
                | _ :: _ => bind_positional self 0 args []
                end) as [values0 hva].
      now rewrite (bind_keywords_raises self kwargs values0 [] Hex). }
    rewrite Hb. simpl. repeat split; auto; intros; congruence.
  - pose proof (build_values_closed_form self args kwargs Hex) as Hb.
    simpl in Hb. rewrite Hb. simpl. split; [split; discriminate|].
    split; [discriminate|].
    intros values hva hvk H. inversion H; subst.
    set (l := filter (fun kv => negb (dict_mem (fst kv)
                                        (__fields__ (model self)))) kwargs).
    assert (Hl : existsb (fun kv => negb (dict_mem (fst kv)
                                            (__fields__ (model self))))
                         kwargs
                 = match l with [] => false | _ :: _ => true end).
    { subst l. apply existsb_filter_nonempty. }
    rewrite Hl.
    destruct (dict_update [] l) as [|kv vk] eqn:Hu.
    + apply (proj1 (dict_update_nil_iff l)) in Hu. now rewrite Hu.
    + destruct l; [discriminate | reflexivity].
Qed.

Lemma build_values_raises_iff_witness :
  exists vd,
    outcome (validate_arguments (fun s => s)
               (def_function "f" sig_a_posonly_b echo)) = inr vd
    /\ build_values vd [VInt 1] [("b", VInt 2); ("a", VInt 3)]
       = ([], inl NotImplementedError).
Proof.
  eexists. split; [reflexivity|].
  match goal with
  | |- build_values ?vd ?a ?k = _ =>
      apply (proj2 (proj1 (@build_values_raises_iff vd a k)))
  end.
  reflexivity.
Defined.

Lemma dict_update_cons {V} (d : dict V) k v l :
  dict_update d ((k, v) :: l) = dict_update (dict_set k v d) l.
Proof. reflexivity. Qed.

Lemma dict_update_fresh {V} (l : dict V) : forall d,
  NoDup (dict_keys l) ->
  (forall k, In k (dict_keys l) -> dict_mem k d = false) ->
  dict_update d l = d ++ l.
Proof.
  induction l as [|[k v] l IH]; intros d Hnd Hfresh.
  - simpl. now rewrite app_nil_r.
  - rewrite dict_update_cons. simpl in Hnd.
    inversion Hnd as [|? ? Hnotin Hnd']; subst.
    rewrite dict_set_fresh by (apply Hfresh; now left).
    rewrite IH; auto.
    + now rewrite <- app_assoc.
    + intros k' Hk'. unfold dict_mem.
      assert (Hd : dict_mem k' d = false) by (apply Hfresh; now right).
      assert (Hne : k' <> k) by (intros ->; contradiction).
      change (dict_mem k' (d ++ [(k, v)]) = false).
      rewrite <- (dict_set_fresh k v d) by (apply Hfresh; now left).
      rewrite dict_mem_set, Hd.
      destruct (String.eqb_spec k' k); [contradiction | reflexivity].
Qed.

Lemma combine_keys_NoDup {V} (ns : list string) : forall (vs : list V),
  NoDup ns -> NoDup (dict_keys (combine ns vs)).
Proof.
  induction ns as [|n ns IH]; intros vs Hnd; simpl.
  - constructor.
  - destruct vs as [|v vs]; simpl; [constructor|].
    inversion Hnd as [|? ? Hnotin Hnd']; subst. constructor; auto.
    intros Hin. apply Hnotin. unfold dict_keys in Hin.
    apply in_map_iff in Hin as [[n' v'] [Hn' Hin]]. simpl in Hn'. subst n'.
    eapply in_combine_l; eauto.
Qed.

(** The positional walk, when the indices from [i] on map to the names
    [ns], one after the other, and the next index maps to nothing. *)
Lemma bind_positional_closed_form self ns : forall i args values,
  (forall j, j < List.length ns ->
             mapping_get (i + j) (arg_mapping self) = nth_error ns j) ->
  mapping_get (i + List.length ns) (arg_mapping self) = None ->
  bind_positional self i args values =
  if Nat.leb (List.length args) (List.length ns)
  then (dict_update values (combine ns args), false)
  else (dict_set (args_field_name self)
                 (VList (skipn (List.length ns) args))
                 (dict_update values
                    (combine ns (firstn (List.length ns) args))),
        true).
Proof.
  induction ns as [|n ns IH]; intros i args values Hmap Hnone.
  - simpl in Hnone. rewrite Nat.add_0_r in Hnone.
    destruct args as [|a rest]; simpl; [reflexivity|].
    now rewrite Hnone.
  - destruct args as [|a rest]; [reflexivity|].
    pose proof (Hmap 0 (Nat.lt_0_succ _)) as H0.
    rewrite Nat.add_0_r in H0. simpl in H0.
    simpl bind_positional. rewrite H0.
    rewrite (IH (S i) rest (dict_set n a values)).
    + reflexivity.
    + intros j Hj.
      assert (Hj' : S j < List.length (n :: ns)) by (simpl; lia).
      pose proof (Hmap (S j) Hj') as HS. simpl nth_error in HS.
      rewrite <- HS. f_equal. lia.
    + rewrite <- Hnone. f_equal. simpl. lia.
Qed.

(** X6. Let the signature be a run [pos] of positional parameters with
    distinct names, followed by parameters of which the first, if any, is
    not positional. After a successful [__init__], the positional walk
    pairs the arguments with the names of [pos] in order; when there are
    more arguments than names, the remaining ones are stored as one list
    under [args_field_name] and the overflow flag is set, otherwise the
    flag is clear and nothing else is written. *)
Theorem positional_walk_of_init
        (to_camel : string -> string) (function : Callable)
        (vd : ValidatedFunction) (pos others : list Param)
        (args : list value) :
  outcome (validate_arguments to_camel function) = inr vd ->
  parameters function = pos ++ others ->
  Forall (fun p => positional_kind (kind p) = true) pos ->
  (forall p, hd_error others = Some p -> positional_kind (kind p) = false) ->
  NoDup (map name pos) ->
  bind_positional vd 0 args [] =
  if Nat.leb (List.length args) (List.length pos)
  then (combine (map name pos) args, false)
  else (dict_set (args_field_name vd)
                 (VList (skipn (List.length pos) args))
                 (combine (map name pos) (firstn (List.length pos) args)),
        true).
Proof.
  intros Hinit Hsig Hpos Hhd Hnd.
  destruct (init_inv _ _ Hinit) as (_ & _ & Hmap & _).
  assert (Hget : forall j,
             mapping_get j (arg_mapping vd) =
             match nth_error (pos ++ others) j with
             | Some p => if positional_kind (kind p) then Some (name p)
                         else None
             | None => None
             end).
  { intros j. rewrite Hmap, init_loop_from, arg_mapping_from by reflexivity.
    simpl. now rewrite Nat.sub_0_r, Hsig. }
  rewrite (bind_positional_closed_form vd (map name pos) 0 args []).
  - rewrite length_map.
    rewrite !dict_update_fresh;
      try (apply combine_keys_NoDup; assumption);
      try (intros; reflexivity).
  - intros j Hj. rewrite length_map in Hj. simpl. rewrite Hget.
    rewrite nth_error_app1 by assumption. rewrite nth_error_map.
    destruct (nth_error pos j) as [p|] eqn:E; simpl; auto.
    rewrite Forall_forall in Hpos.
    now rewrite (Hpos p (nth_error_In _ _ E)).
  - simpl. rewrite length_map, Hget.
    rewrite nth_error_app2, Nat.sub_diag by lia.
    destruct others as [|p others']; simpl; auto.
    now rewrite (Hhd p eq_refl).
Qed.

Lemma positional_walk_of_init_witness :
  exists vd,
    outcome (validate_arguments (fun s => s)
               (def_function "f" sig_a_b_rest_kw echo)) = inr vd
    /\ bind_positional vd 0 [VInt 1; VInt 2; VInt 3; VInt 4] []
       = ([("a", VInt 1); ("b", VInt 2);
           ("args", VList [VInt 3; VInt 4])], true)
    /\ bind_positional vd 0 [VInt 1] [] = ([("a", VInt 1)], false).
Proof.
  eexists. split; [reflexivity|].
  assert (Hpos : Forall (fun p => positional_kind (kind p) = true)
                        (firstn 2 sig_a_b_rest_kw))
    by (repeat constructor).
  assert (Hhd : forall p, hd_error (skipn 2 sig_a_b_rest_kw) = Some p ->
                          positional_kind (kind p) = false)
    by (intros p H; inversion H; reflexivity).
  assert (Hnd : NoDup (map name (firstn 2 sig_a_b_rest_kw)))
    by distinct_names.
  split.
  - exact (@positional_walk_of_init (fun s => s)
             (def_function "f" sig_a_b_rest_kw echo) _
             (firstn 2 sig_a_b_rest_kw) (skipn 2 sig_a_b_rest_kw)
             [VInt 1; VInt 2; VInt 3; VInt 4]
             eq_refl eq_refl Hpos Hhd Hnd).
  - exact (@positional_walk_of_init (fun s => s)
             (def_function "f" sig_a_b_rest_kw echo) _
             (firstn 2 sig_a_b_rest_kw) (skipn 2 sig_a_b_rest_kw)
             [VInt 1] eq_refl eq_refl Hpos Hhd Hnd).
Defined.

(** ** What [execute] passes on *)

Lemma dict_pop_found {V} (k : string) (v : V) (after : dict V) :
  forall before,
    ~ In k (dict_keys before) ->
    dict_pop k (before ++ (k, v) :: after) = Some (v, before ++ after).
Proof.
  induction before as [|[k' v'] before IH]; intros Hnotin; simpl.
  - now rewrite String.eqb_refl.
  - simpl in Hnotin.
    destruct (String.eqb_spec k k') as [->|Hne]; [tauto|].
    rewrite IH by tauto. reflexivity.
Qed.

Lemma dict_pop_absent {V} (k : string) : forall (d : dict V),
  ~ In k (dict_keys d) -> dict_pop k d = None.
Proof.
  induction d as [|[k' v'] d IH]; intros Hnotin; simpl; auto.
  simpl in Hnotin.
  destruct (String.eqb_spec k k') as [->|Hne]; [tauto|].
  rewrite IH by tauto. reflexivity.
Qed.

Lemma as_items_app d1 d2 :
  as_items (d1 ++ d2) = as_items d1 ++ as_items d2.
Proof. unfold as_items. apply map_app. Qed.

Lemma split_var_args_in_kwargs self : forall its args_ kwargs,
  split_var_args self (as_items its) true args_ (as_items kwargs)
  = ret (args_, as_items (dict_update kwargs its)).
Proof.
  induction its as [|[n v] rest IH]; intros args_ kwargs; simpl; auto.
  rewrite items_set_as_items. apply IH.
Qed.

Lemma split_var_args_before self : forall before rest args_ kwargs,
  ~ In (args_field_name self) (dict_keys before) ->
  split_var_args self (as_items before ++ rest) false args_ kwargs
  = split_var_args self rest false (args_ ++ map snd before) kwargs.
Proof.
  induction before as [|[n v] before IH]; intros rest args_ kwargs Hnotin;
    simpl.
  - now rewrite app_nil_r.
  - simpl in Hnotin.
    destruct (String.eqb_spec n (args_field_name self)) as [->|Hne];
      [tauto|].
    rewrite IH by tauto. now rewrite <- app_assoc.
Qed.

(** X7. In the branch of [execute] taken when the positional overflow was
    bound: the explicitly set fields that come before the field named
    [args_field_name] are passed positionally, in order, followed by the
    elements of that field's value; the fields after it are passed by
    keyword. If that value cannot be iterated, [execute] raises [TypeError]
    and the wrapped callable is not invoked. *)
Theorem execute_var_args
        (self : ValidatedFunction) (m : Instance)
        (before after : dict value) (v : value) :
  explicit_values m = before ++ (args_field_name self, v) :: after ->
  ~ In (args_field_name self) (dict_keys before) ->
  (forall l, iter_value v = Some l ->
             execute self m true false
             = invoke (raw_function self) (map snd before ++ l)
                      (dict_update [] after))
  /\ (iter_value v = None ->
      execute self m true false = ([], inl TypeError)).
Proof.
  intros Hd Hnotin. unfold execute. rewrite bind_ret_l, Hd, as_items_app.
  rewrite split_var_args_before by assumption. simpl.
  rewrite String.eqb_refl. split.
  - intros l Hl. rewrite Hl.
    change (@nil (value * value)) with (as_items []).
    rewrite split_var_args_in_kwargs, bind_ret_l.
    apply call_raw_function_eq.
  - intros Hnone. rewrite Hnone. reflexivity.
Qed.

Lemma execute_var_args_witness :
  exists vd,
    outcome (validate_arguments (fun s => s)
               (def_function "f" sig_a_b_args_kwargs echo)) = inr vd
    /\ execute vd (mkInstance [("a", VInt 1); ("b", VInt 2);
                               ("args", VTuple [VInt 3]);
                               ("kwargs", VNone)]
                              ["a"; "b"; "args"])
               true false
       = invoke (raw_function vd) [VInt 1; VInt 2; VInt 3] [].
Proof.
  eexists. split; [reflexivity|].
  match goal with
  | |- execute ?vd ?m _ _ = _ =>
      destruct (@execute_var_args vd m
                  [("a", VInt 1); ("b", VInt 2)] [] (VTuple [VInt 3])
                  eq_refl)
        as [Hsome _]
  end.
  - simpl. intros [H|[H|[]]]; discriminate.
  - exact (Hsome [VInt 3] eq_refl).
Defined.

(** X8. In the same branch, when no explicitly set field is named
    [args_field_name], every explicitly set field is passed positionally,
    in field order, and nothing is passed by keyword. *)
Theorem execute_var_args_absent
        (self : ValidatedFunction) (m : Instance) :
  ~ In (args_field_name self) (dict_keys (explicit_values m)) ->
  execute self m true false
  = invoke (raw_function self) (map snd (explicit_values m)) [].
Proof.
  intros Hnotin. unfold execute. rewrite bind_ret_l.
  rewrite <- (app_nil_r (as_items (explicit_values m))).
  rewrite split_var_args_before by assumption.
  simpl split_var_args. rewrite bind_ret_l.
  exact (call_raw_function_eq self (map snd (explicit_values m)) []).
Qed.

Lemma execute_var_args_absent_witness :
  exists vd,
    outcome (validate_arguments (fun s => s)
               (def_function "f" sig_a_b echo)) = inr vd
    /\ execute vd (mkInstance [("a", VInt 1); ("b", VInt 2)] ["a"; "b"])
               true false
       = invoke (raw_function vd) [VInt 1; VInt 2] [].
Proof.
  eexists. split; [reflexivity|].
  match goal with
  | |- execute ?vd ?m _ _ = _ =>
      apply (@execute_var_args_absent vd m)
  end.
  simpl. intros [H|[H|[]]]; discriminate.
Defined.

(** X9. In the branch of [execute] taken when a keyword overflow was bound:
    if no explicitly set field is named [kwargs_field_name], [execute]
    raises [KeyError] for that name; if the field is there and its value
    cannot be iterated ([None] or an integer), it raises [TypeError]; if
    its value is a non-empty string, it raises [ValueError]. In all three
    cases the wrapped callable is not invoked. *)
Theorem execute_var_kwargs_errors
        (self : ValidatedFunction) (m : Instance) (has_var_args : bool) :
  (~ In (kwargs_field_name self) (dict_keys (explicit_values m)) ->
   execute self m has_var_args true
   = ([], inl (KeyError (kwargs_field_name self))))
  /\ (forall before after v,
         explicit_values m
         = before ++ (kwargs_field_name self, v) :: after ->
         ~ In (kwargs_field_name self) (dict_keys before) ->
         (iter_value v = None ->
          execute self m has_var_args true = ([], inl TypeError))
         /\ (forall c s, v = VStr (String c s) ->
                         execute self m has_var_args true
                         = ([], inl ValueError))).
Proof.
  split.
  - intros Hnotin. unfold execute, merge_var_kwargs.
    now rewrite dict_pop_absent.
  - intros before after v Hd Hnotin.
    unfold execute, merge_var_kwargs.
    rewrite Hd, dict_pop_found by assumption. split.
    + intros Hnone. destruct v; try discriminate; reflexivity.
    + intros c s ->. reflexivity.
Qed.

Lemma execute_var_kwargs_errors_witness :
  exists vd,
    outcome (validate_arguments (fun s => s)
               (def_function "f" sig_a_b_args_kwargs echo)) = inr vd
    /\ execute vd (mkInstance [("a", VInt 1); ("b", VInt 2)] ["a"; "b"])
               false true
       = ([], inl (KeyError "kwargs"))
    /\ execute vd (mkInstance [("a", VInt 1); ("kwargs", VInt 7)]
                              ["a"; "kwargs"])
               false true
       = ([], inl TypeError)
    /\ execute vd (mkInstance [("a", VInt 1); ("kwargs", VStr "xy")]
                              ["a"; "kwargs"])
               false true
       = ([], inl ValueError).
Proof.
  eexists. split; [reflexivity|]. split; [|split].
  - match goal with
    | |- execute ?vd ?m _ _ = _ =>
        apply (proj1 (@execute_var_kwargs_errors vd m false))
    end.
    simpl. intros [H|[H|[]]]; discriminate.
  - match goal with
    | |- execute ?vd ?m _ _ = _ =>
        apply (proj1 (proj2 (@execute_var_kwargs_errors vd m false)
                        [("a", VInt 1)] [] (VInt 7) eq_refl
                        ltac:(simpl; intros [H|[]]; discriminate)))
    end.
    reflexivity.
  - match goal with
    | |- execute ?vd ?m _ _ = _ =>
        apply (proj2 (proj2 (@execute_var_kwargs_errors vd m false)
                        [("a", VInt 1)] [] (VStr "xy") eq_refl
                        ltac:(simpl; intros [H|[]]; discriminate))
                     "x"%char "y")
    end.
    reflexivity.
Defined.

(** X10. In that branch, when the field named [kwargs_field_name] holds a
    mapping, [execute] goes on as it would without keyword overflow on the
    other explicitly set fields updated, in order, with the entries of the
    mapping: an entry named like a remaining field replaces that field's
    value in place, a new name goes last. *)
Theorem execute_var_kwargs_merge
        (self : ValidatedFunction) (m m' : Instance) (has_var_args : bool)
        (before after other : dict value) :
  explicit_values m
  = before ++ (kwargs_field_name self, VDict other) :: after ->
  ~ In (kwargs_field_name self) (dict_keys before) ->
  explicit_values m' = dict_update (before ++ after) other ->
  execute self m has_var_args true = execute self m' has_var_args false.
Proof.
  intros Hd Hnotin Hd'. unfold execute, merge_var_kwargs.
  rewrite Hd, dict_pop_found by assumption.
  rewrite items_update_mapping, Hd'. reflexivity.
Qed.

Lemma execute_var_kwargs_merge_witness :
  exists vd,
    outcome (validate_arguments (fun s => s)
               (def_function "f" sig_a_b_args_kwargs echo)) = inr vd
    /\ execute vd (mkInstance [("a", VInt 1); ("b", VInt 2);
                               ("args", VNone);
                               ("kwargs", VDict [("x", VInt 4)])]
                              ["a"; "kwargs"])
               false true
       = invoke (raw_function vd) [] [("a", VInt 1); ("x", VInt 4)].
Proof.
  eexists. split; [reflexivity|].
  match goal with
  | |- execute ?vd ?m _ _ = _ =>
      transitivity
        (execute vd (mkInstance [("a", VInt 1); ("x", VInt 4)] ["a"; "x"])
                 false false);
        [ apply (@execute_var_kwargs_merge vd m
                   (mkInstance [("a", VInt 1); ("x", VInt 4)] ["a"; "x"])
                   false [("a", VInt 1)] [] [("x", VInt 4)])
        | reflexivity ]
  end.
  - reflexivity.
  - simpl. intros [H|[]]; discriminate.
  - reflexivity.
Defined.

(** ** Binding and reconstruction together *)

Lemma map_snd_combine {A B} (ns : list A) : forall (vs : list B),
  List.length vs <= List.length ns -> map snd (combine ns vs) = vs.
Proof.
  induction ns as [|n ns IH]; intros vs Hlen.
  - destruct vs; [reflexivity | simpl in Hlen; lia].
  - destruct vs as [|v vs]; [reflexivity|]. simpl in *.
    rewrite IH by lia. reflexivity.
Qed.

Lemma combine_keys_incl {V} (ns : list string) (vs : list V) k :
  In k (dict_keys (combine ns vs)) -> In k ns.
Proof.
  unfold dict_keys. intros Hin.
  apply in_map_iff in Hin as [[k' v] [Hk Hin]]. simpl in Hk. subst k'.
  eapply in_combine_l; eauto.
Qed.

(** X11. Let the signature be a run [pos] of positional parameters followed
    by a variadic positional parameter named ["args"], all names distinct.
    For a call with more positional arguments than [pos] has parameters
    and no keywords, [build_values] binds the leading arguments to the
    names of [pos] and the remaining ones, as a list, to ["args"]; and
    from an instance whose explicitly set values are these bound values,
    [execute] invokes the wrapped callable with exactly the positional
    arguments of the call and no keywords. *)
Theorem positional_overflow_round_trip
        (to_camel : string -> string) (function : Callable)
        (vd : ValidatedFunction) (pos others : list Param) (pa : Param)
        (args : list value) :
  outcome (validate_arguments to_camel function) = inr vd ->
  parameters function = pos ++ pa :: others ->
  Forall (fun p => positional_kind (kind p) = true) pos ->
  kind pa = VAR_POSITIONAL ->
  name pa = "args" ->
  NoDup (map name (pos ++ [pa])) ->
  List.length pos < List.length args ->
  let values :=
    combine (map name pos) (firstn (List.length pos) args)
    ++ [("args", VList (skipn (List.length pos) args))] in
  build_values vd args [] = ([], inr (values, true, false))
  /\ forall m,
      explicit_values m = values ->
      execute vd m true false = invoke function args [].
Proof.
  intros Hinit Hsig Hpos Hkind Hname Hnd Hlen values.
  destruct (init_inv _ _ Hinit) as (_ & Hraw & Hmap & _ & _ & _ & Ha & _).
  assert (Hargs : args_field_name vd = "args").
  { rewrite Ha, init_loop_from, allows_var_args_from, Hsig.
    rewrite existsb_app. simpl. unfold is_var_positional at 2.
    rewrite Hkind. simpl. now rewrite orb_true_r. }
  assert (Hndpos : NoDup (map name pos) /\ ~ In "args" (map name pos)).
  { rewrite map_app in Hnd. simpl in Hnd. rewrite Hname in Hnd.
    split.
    - eapply NoDup_app_remove_r; eauto.
    - intros Hin. apply NoDup_remove_2 in Hnd. apply Hnd.
      rewrite app_nil_r. exact Hin. }
  destruct Hndpos as [Hndpos Hfresh].
  assert (Hget : forall j,
             mapping_get j (arg_mapping vd) =
             match nth_error (pos ++ pa :: others) j with
             | Some p => if positional_kind (kind p) then Some (name p)
                         else None
             | None => None
             end).
  { intros j. rewrite Hmap, init_loop_from, arg_mapping_from by reflexivity.
    simpl. now rewrite Nat.sub_0_r, Hsig. }
  assert (Hwalk : bind_positional vd 0 args [] = (values, true)).
  { rewrite (bind_positional_closed_form vd (map name pos) 0 args []).
    - rewrite length_map.
      replace (Nat.leb (List.length args) (List.length pos)) with false
        by (symmetry; apply Nat.leb_gt; lia).
      rewrite dict_update_fresh;
        [| apply combine_keys_NoDup; assumption | intros; reflexivity].
      simpl. rewrite Hargs, dict_set_fresh; [reflexivity|].
      apply dict_mem_false. intros Hin. apply Hfresh.
      eapply combine_keys_incl; eauto.
    - intros j Hj. rewrite length_map in Hj. simpl. rewrite Hget.
      rewrite nth_error_app1 by assumption. rewrite nth_error_map.
      destruct (nth_error pos j) as [p|] eqn:E; simpl; auto.
      rewrite Forall_forall in Hpos.
      now rewrite (Hpos p (nth_error_In _ _ E)).
    - simpl. rewrite length_map, Hget.
      rewrite nth_error_app2, Nat.sub_diag by lia. simpl.
      now rewrite Hkind. }
  split.
  - rewrite build_values_no_keywords, Hwalk. reflexivity.
  - intros m Hm. unfold execute. rewrite bind_ret_l, Hm. subst values.
    rewrite as_items_app, split_var_args_before.
    + cbn [as_items map fst snd split_var_args key_eqb].
      rewrite Hargs, String.eqb_refl.
      cbn [iter_value split_var_args]. rewrite bind_ret_l.
      rewrite map_snd_combine
        by (rewrite length_map, length_firstn; lia).
      cbn [fst snd app]. rewrite firstn_skipn.
      rewrite <- Hraw.
      exact (call_raw_function_eq vd args []).
    + rewrite Hargs. intros Hin. apply Hfresh.
      eapply combine_keys_incl; eauto.
Qed.

Lemma positional_overflow_round_trip_witness :
  exists vd,
    outcome (validate_arguments (fun s => s)
               (def_function "f" sig_a_b_args_kwargs echo)) = inr vd
    /\ build_values vd [VInt 1; VInt 2; VInt 3; VInt 4] []
       = ([], inr ([("a", VInt 1); ("b", VInt 2);
                    ("args", VList [VInt 3; VInt 4])], true, false)).
Proof.
  eexists. split; [reflexivity|].
  assert (Hpos : Forall (fun p => positional_kind (kind p) = true)
                        (firstn 2 sig_a_b_args_kwargs))
    by (repeat constructor).
  assert (Hnd : NoDup (map name (firstn 3 sig_a_b_args_kwargs)))
    by distinct_names.
  assert (Hlen : 2 < List.length [VInt 1; VInt 2; VInt 3; VInt 4])
    by (simpl; lia).
  exact (proj1 (@positional_overflow_round_trip (fun s => s)
                  (def_function "f" sig_a_b_args_kwargs echo) _
                  (firstn 2 sig_a_b_args_kwargs)
                  (skipn 3 sig_a_b_args_kwargs)
                  (mkParam "args" VAR_POSITIONAL None None)
                  [VInt 1; VInt 2; VInt 3; VInt 4]
                  eq_refl eq_refl Hpos eq_refl eq_refl Hnd Hlen)).
Defined.

(** ** [d.update] with a sequence of pairs *)

Lemma update_from_pairs_strings pairs other : forall d,
  Forall2 (fun e kv => iter_value e = Some [VStr (fst kv); snd kv])
          pairs other ->
  update_from_pairs (as_items d) pairs
  = inr (as_items (dict_update d other)).
Proof.
  intros d H. revert d.
  induction H as [|e [k x] pairs other He Hrest IH]; intros d.
  - reflexivity.
  - simpl in He. simpl update_from_pairs. unfold key_value_pair.
    rewrite He. simpl hashable. cbv iota.
    rewrite items_set_as_items, IH. reflexivity.
Qed.

Lemma update_from_pairs_error good bad rest ex : forall d,
  Forall (fun e => exists kv, key_value_pair e = inr kv) good ->
  key_value_pair bad = inl ex ->
  update_from_pairs d (good ++ bad :: rest) = inl ex.
Proof.
  induction good as [|e good IH]; intros d Hgood Hbad; simpl.
  - now rewrite Hbad.
  - inversion Hgood as [|? ? [[k x] He] Hgood']; subst.
    rewrite He. now apply IH.
Qed.

(** X12. With [has_var_kwargs] set and the field named [kwargs_field_name]
    holding a list or a tuple whose elements are all sequences of a string
    and a value, [execute] goes on exactly as if the field held the mapping
    with these keys and values; in particular an empty list or tuple
    changes nothing. *)
Theorem execute_var_kwargs_pairs
        (self : ValidatedFunction) (m m' : Instance) (has_var_args : bool)
        (before after other : dict value) (v : value)
        (pairs : list value) :
  explicit_values m = before ++ (kwargs_field_name self, v) :: after ->
  ~ In (kwargs_field_name self) (dict_keys before) ->
  v = VList pairs \/ v = VTuple pairs ->
  Forall2 (fun e kv => iter_value e = Some [VStr (fst kv); snd kv])
          pairs other ->
  explicit_values m' = dict_update (before ++ after) other ->
  execute self m has_var_args true = execute self m' has_var_args false.
Proof.
  intros Hd Hnotin Hv Hpairs Hd'. unfold execute, merge_var_kwargs.
  rewrite Hd, dict_pop_found by assumption.
  assert (Hu : items_update (as_items (before ++ after)) v
               = inr (as_items (dict_update (before ++ after) other))).
  { destruct Hv as [-> | ->]; simpl;
      now apply update_from_pairs_strings. }
  rewrite Hu, Hd'. reflexivity.
Qed.

Lemma execute_var_kwargs_pairs_witness :
  exists vd,
    outcome (validate_arguments (fun s => s)
               (def_function "f" sig_a_b_args_kwargs echo)) = inr vd
    /\ execute vd (mkInstance
                     [("a", VInt 0);
                      ("kwargs", VList [VTuple [VStr "x"; VInt 1]])]
                     ["a"; "kwargs"])
               false true
       = invoke (raw_function vd) [] [("a", VInt 0); ("x", VInt 1)].
Proof.
  eexists. split; [reflexivity|].
  match goal with
  | |- execute ?vd ?m _ _ = _ =>
      transitivity
        (execute vd (mkInstance [("a", VInt 0); ("x", VInt 1)] ["a"; "x"])
                 false false);
        [ apply (@execute_var_kwargs_pairs vd m
                   (mkInstance [("a", VInt 0); ("x", VInt 1)] ["a"; "x"])
                   false [("a", VInt 0)] [] [("x", VInt 1)]
                   (VList [VTuple [VStr "x"; VInt 1]])
                   [VTuple [VStr "x"; VInt 1]])
        | reflexivity ]
  end.
  - reflexivity.
  - simpl. intros [H|[]]; discriminate.
  - left. reflexivity.
  - repeat constructor.
  - reflexivity.
Defined.

(** X13. With [has_var_kwargs] set and the field named [kwargs_field_name]
    holding a list or a tuple, the first element that is not a key/value
    pair decides the error, and the wrapped callable is not invoked:
    [TypeError] if the element cannot be iterated, [ValueError] if it does
    not have exactly two elements, [TypeError] if its first element cannot
    be hashed. *)
Theorem execute_var_kwargs_bad_pair
        (self : ValidatedFunction) (m : Instance) (has_var_args : bool)
        (before after : dict value) (v bad : value)
        (good rest : list value) :
  explicit_values m = before ++ (kwargs_field_name self, v) :: after ->
  ~ In (kwargs_field_name self) (dict_keys before) ->
  v = VList (good ++ bad :: rest) \/ v = VTuple (good ++ bad :: rest) ->
  Forall (fun e => exists kv, key_value_pair e = inr kv) good ->
  (iter_value bad = None ->
   execute self m has_var_args true = ([], inl TypeError))
  /\ (forall es, iter_value bad = Some es -> List.length es <> 2 ->
                 execute self m has_var_args true = ([], inl ValueError))
  /\ (forall k x, iter_value bad = Some [k; x] -> hashable k = false ->
                  execute self m has_var_args true = ([], inl TypeError)).
Proof.
  intros Hd Hnotin Hv Hgood.
  assert (Herr : forall ex, key_value_pair bad = inl ex ->
                            execute self m has_var_args true = ([], inl ex)).
  { intros ex Hbad. unfold execute, merge_var_kwargs.
    rewrite Hd, dict_pop_found by assumption.
    assert (Hu : items_update (as_items (before ++ after)) v = inl ex).
    { destruct Hv as [-> | ->]; simpl;
        now apply update_from_pairs_error. }
    now rewrite Hu. }
  split; [|split].
  - intros Hnone. apply Herr. unfold key_value_pair. now rewrite Hnone.
  - intros es Hes Hlen. apply Herr. unfold key_value_pair. rewrite Hes.
    destruct es as [|a [|b [|c es']]]; simpl in Hlen;
      try reflexivity; congruence.
  - intros k x Hes Hk. apply Herr. unfold key_value_pair.
    now rewrite Hes, Hk.
Qed.

Lemma execute_var_kwargs_bad_pair_witness :
  exists vd,
    outcome (validate_arguments (fun s => s)
               (def_function "f" sig_a_b_args_kwargs echo)) = inr vd
    /\ execute vd (mkInstance
                     [("a", VInt 0);
                      ("kwargs", VList [VTuple [VStr "x"; VInt 1];
                                        VTuple [VStr "y"]])]
                     ["a"; "kwargs"])
               false true
       = ([], inl ValueError).
Proof.
  eexists. split; [reflexivity|].
  match goal with
  | |- execute ?vd ?m _ _ = _ =>
      destruct (@execute_var_kwargs_bad_pair vd m false
                  [("a", VInt 0)] []
                  (VList [VTuple [VStr "x"; VInt 1]; VTuple [VStr "y"]])
                  (VTuple [VStr "y"]) [VTuple [VStr "x"; VInt 1]] []
                  eq_refl)
        as (_ & Hlen & _)
  end.
  - simpl. intros [H|[]]; discriminate.
  - left. reflexivity.
  - constructor; [|constructor]. eexists. reflexivity.
  - apply (Hlen [VStr "y"] eq_refl). simpl. discriminate.
Defined.
